(** * Dictation helper: extraction service, start-up guards and practice session

    A shallow embedding of the TypeScript sources

    - [services/geminiService.ts] ([analyzeMaterial], [chatWithAssistant]),
    - [types.ts],
    - [App.tsx] ([handleStart]),
    - [components/Setup.tsx] ([handleProcess]),
    - the [Practice] component, which follows the [Worksheet] component in
      [components/Worksheet.tsx] ([handleNext], [speakText],
      [handlePlayAudio], [toggleListening] and the recognition callbacks,
      [handleChatSubmit]),

    followed by the properties of the specification that concern them.

    Conventions.  A JavaScript string is represented by the [string] of its
    UTF-8 bytes; only emptiness, equality, concatenation and white space are
    ever observed.  A promise is represented by the completion it settles
    with.  [console.error] only writes to the console and is left out. *)

From stdpp Require Import base option list gmap strings pretty.
From Stdlib Require QArith_base.
From Stdlib Require Import ZArith Lia.

#[local] Set Warnings "-register-all".
#[local] Open Scope string_scope.
#[local] Open Scope list_scope.
#[local] Open Scope nat_scope.

(** The double quote character, for the places where a template literal of
    the source contains one. *)
Definition dquote : string := String (Ascii.ascii_of_nat 34) EmptyString.

(** [Array.prototype.join]. *)
Fixpoint join (sep : string) (l : list string) : string :=
  match l with
  | [] => EmptyString
  | [s] => s
  | s :: l' => s +:+ sep +:+ join sep l'
  end.

(** ** The fragment of the JavaScript run time that the services rely on *)
Module JS.

(** A Number value. *)
Inductive number :=
| NaN
| Infinity (negative : bool)
| Finite (q : QArith_base.Q).

(** Run-time values: what [JSON.parse] can return, plus [undefined]. *)
Inductive value :=
| VUndefined
| VNull
| VBool (b : bool)
| VNumber (n : number)
| VString (s : string)
| VArray (l : list value)
| VObject (m : gmap string value).

Inductive exn :=
| TypeError
| SyntaxError
| HostError (msg : string).

(** How the evaluation of an expression, or a promise, ends. *)
Inductive completion (A : Type) :=
| Normal (a : A)
| Throw (e : exn).
Arguments Normal {A} a.
Arguments Throw {A} e.

Definition bind {A B} (c : completion A) (k : A -> completion B) : completion B :=
  match c with
  | Normal a => k a
  | Throw e => Throw e
  end.

(** [try { body } catch (error) { handler }] *)
Definition try_catch {A} (body : completion A) (handler : exn -> completion A)
  : completion A :=
  match body with
  | Normal a => Normal a
  | Throw e => handler e
  end.

Definition number_is_zero (n : number) : bool :=
  match n with
  | Finite q => Z.eqb (QArith_base.Qnum q) 0
  | _ => false
  end.

(** [ToBoolean]: the falsy values are [undefined], [null], [false], zero,
    [NaN] and the empty string. *)
Definition ToBoolean (v : value) : bool :=
  match v with
  | VUndefined | VNull => false
  | VBool b => b
  | VNumber NaN => false
  | VNumber n => negb (number_is_zero n)
  | VString s => negb (String.eqb s EmptyString)
  | VArray _ | VObject _ => true
  end.

(** The value of [v.k] for a [v] other than [null] and [undefined] and a
    property name [k] that no built-in prototype defines (every name read by
    [analyzeMaterial] is one): an object answers with its own property, any
    other value with [undefined]. *)
Definition property (v : value) (k : string) : value :=
  match v with
  | VObject m => default VUndefined (m !! k)
  | _ => VUndefined
  end.

Definition nullish (v : value) : bool :=
  match v with
  | VUndefined | VNull => true
  | _ => false
  end.

(** [v.k]: reading a property of [null] or [undefined] throws. *)
Definition Get (v : value) (k : string) : completion value :=
  if nullish v then Throw TypeError else Normal (property v k).

(** [a || b], the right operand evaluated only when the left one is falsy. *)
Definition or (a b : completion value) : completion value :=
  bind a (fun v => if ToBoolean v then Normal v else b).

(** [Array.prototype.map] with a callback that may throw. *)
Fixpoint map_from {A B} (f : A -> nat -> completion B) (index : nat) (l : list A)
  : completion (list B) :=
  match l with
  | [] => Normal []
  | x :: l' =>
      bind (f x index) (fun y =>
      bind (map_from f (S index) l') (fun ys => Normal (y :: ys)))
  end.

Definition Array_map {A B} (f : A -> nat -> completion B) (l : list A)
  : completion (list B) :=
  map_from f 0 l.

(** [(s || d)] for a value typed [string | undefined]. *)
Definition string_or (s : option string) (d : string) : string :=
  match s with
  | Some (String c r) => String c r
  | _ => d
  end.

(** A template-literal hole filled with a value typed [string | undefined]. *)
Definition template_hole (s : option string) : string :=
  default "undefined" s.

End JS.

#[export] Instance completion_bind : MBind JS.completion :=
  fun A B k c => JS.bind c k.

#[export] Instance completion_ret : MRet JS.completion :=
  fun A a => JS.Normal a.

(** ** [types.ts] *)
Module Types.

Inductive DictationMode := paragraph | vocab | idiom.

Definition DictationMode_toString (m : DictationMode) : string :=
  match m with
  | paragraph => "paragraph"
  | vocab => "vocab"
  | idiom => "idiom"
  end.

Record DictationItem := {
  item_id : string;
  content : string;
  subContent : option string;
  meaning : option string;
  example : option string;
  clozeContent : option string;
  isNewParagraph : option bool
}.

Inductive Role := user | model.

Definition Role_toString (r : Role) : string :=
  match r with
  | user => "user"
  | model => "model"
  end.

Record ChatMessage := {
  id : string;
  role : Role;
  text : option string;
  audioData : option string;
  isAudio : option bool
}.

Inductive RobotEmotion := idle | happy | thinking | speaking | sad.

Inductive View := setup | practice | worksheet | report.

Inductive AudioLanguage := mandarin | cantonese.

Record AppState := {
  view : View;
  mode : DictationMode;
  audioLanguage : AudioLanguage;
  dictationList : list DictationItem;
  currentIndex : nat
}.

End Types.

(** ** [services/geminiService.ts] *)
Module GeminiService.
Import JS Types.

Record File := { mimeType : string; data : string }.

Inductive Part :=
| inlineData (mimeType data : string)
| textPart (text : string).

Inductive SchemaType := STRING | BOOLEAN.

Record Property := {
  prop_name : string;
  prop_type : SchemaType;
  description : string
}.

(** An [OBJECT] schema. *)
Record ItemSchema := {
  properties : list Property;
  required : list string
}.

Definition systemInstruction_base : string :=
"
    You are an expert Chinese Language Teacher. Your task is to extract dictation content from the provided text or images.

    **CRITICAL OCR INSTRUCTIONS:**
    1. **High Precision:** Perform accurate OCR for Traditional Chinese.
    2. **Contextual Correction:** Correct visually similar errors (e.g., '傢' vs '像') based on context.
    3. **Output Format:** Traditional Chinese (Hong Kong standard).
    ".

Definition systemInstruction_paragraph : string :=
"
        
**Mode: Paragraph (Article Cloze)**
        - Extract text and split it into logical sentences.
        - **Structure**: Detect paragraph breaks. Set " +:+ dquote +:+ "newParagraph" +:+ dquote +:+ ": true if a sentence starts a new paragraph in the source text.
        - **Cloze Generation**: Create a 'clozeContent' version (Hard Difficulty).
           - **Target Ratio**: Blank out approximately **2/3 (60-70%)** of the content.
           - **Strategy**: 
             - **KEEP**: Only simple particles (e.g., 的, 了, 在, 是, 有, 著), simple pronouns (我, 你, 他), basic connecting words, and punctuation.
             - **BLANK OUT**: All nouns, verbs, adjectives, idioms, specific names, and complex vocabulary.
             - Use '______' to represent blanked out words.
             - Ensure the flow of the sentence remains visible via punctuation and particles, but the main meaning requires filling in.
        ".

Definition systemInstruction_idiom : string :=
"
        
**Mode: Idioms (Chengyu)**
        - Identify 4-character Chinese idioms.
        - Provide the idiom and its Chinese meaning.
        ".

Definition systemInstruction_vocab : string :=
"
        
**Mode: Vocabulary (Contextual Fill-in-the-Blank)**
        - Identify key vocabulary words.
        - **Sentence Generation**: For EACH word, create (or extract) a simple example sentence using that word.
        - **Cloze Generation**: Create a 'clozeContent' version of that sentence where the target word is replaced by '______'.
        - Ensure 100% character accuracy.
        ".


Definition systemInstruction (mode : DictationMode) : string :=
  systemInstruction_base +:+
  match mode with
  | paragraph => systemInstruction_paragraph
  | idiom => systemInstruction_idiom
  | vocab => systemInstruction_vocab
  end.

Definition itemSchema (mode : DictationMode) : ItemSchema :=
  match mode with
  | paragraph =>
      {| properties :=
           [ {| prop_name := "content"; prop_type := STRING;
                description := "The complete sentence" |};
             {| prop_name := "clozeContent"; prop_type := STRING;
                description := "Sentence with approx 2/3 words replaced by ______" |};
             {| prop_name := "meaning"; prop_type := STRING;
                description := "Simple meaning/translation" |};
             {| prop_name := "newParagraph"; prop_type := BOOLEAN;
                description := "True if this sentence starts a new paragraph" |} ];
         required := ["content"; "clozeContent"; "newParagraph"] |}
  | idiom =>
      {| properties :=
           [ {| prop_name := "content"; prop_type := STRING;
                description := "The Idiom" |};
             {| prop_name := "subContent"; prop_type := STRING;
                description := "Pinyin" |};
             {| prop_name := "meaning"; prop_type := STRING;
                description := "Meaning/Explanation in Traditional Chinese" |} ];
         required := ["content"; "meaning"] |}
  | vocab =>
      {| properties :=
           [ {| prop_name := "content"; prop_type := STRING;
                description := "The target Word" |};
             {| prop_name := "subContent"; prop_type := STRING;
                description := "Pinyin" |};
             {| prop_name := "meaning"; prop_type := STRING;
                description := "Simple Chinese meaning/definition" |};
             {| prop_name := "example"; prop_type := STRING;
                description := "Full example sentence containing the word" |};
             {| prop_name := "clozeContent"; prop_type := STRING;
                description := "Example sentence with the word replaced by ______" |} ];
         required := ["content"; "meaning"; "example"; "clozeContent"] |}
  end.

(** [responseMimeType] and the [items] of the [ARRAY] response schema. *)
Record Config := {
  responseMimeType : string;
  responseSchema_items : ItemSchema
}.

Inductive Contents :=
| parts (ps : list Part)
| prompt (s : string).

Record GenerateContentParameters := {
  model_name : string;
  contents : Contents;
  config : option Config
}.

(** The response of the SDK; its [text] getter is typed [string | undefined]. *)
Record GenerateContentResponse := { response_text : option string }.

(** The object literal built for every raw item.  The raw item is typed
    [any], so the declared element type [DictationItem] is not checked and
    the fields hold whatever the payload held. *)
Record ReturnedItem := {
  id : string;
  content : value;
  subContent : value;
  meaning : value;
  example : value;
  clozeContent : value;
  isNewParagraph : value
}.

Definition analyzeMaterial_parts (text : string) (files : list File)
    (mode : DictationMode) : list Part :=
  map (fun file => inlineData (mimeType file) (data file)) files
  ++ (if String.eqb text EmptyString then []
      else [textPart ("Text Content to Process: " +:+ dquote +:+ text +:+ dquote)])
  ++ [textPart (systemInstruction mode)].

Definition analyzeMaterial_request (text : string) (files : list File)
    (mode : DictationMode) : GenerateContentParameters :=
  {| model_name := "gemini-2.5-flash";
     contents := parts (analyzeMaterial_parts text files mode);
     config := Some {| responseMimeType := "application/json";
                       responseSchema_items := itemSchema mode |} |}.

(** The callback of [rawItems.map]. *)
Definition toDictationItem (item : value) (index : nat) : completion ReturnedItem :=
  content_ ← Get item "content";
  subContent_ ← or (or (Get item "subContent") (Get item "pinyin"))
                    (Normal (VString EmptyString));
  meaning_ ← or (Get item "meaning") (Normal (VString EmptyString));
  example_ ← or (Get item "example") (Normal (VString EmptyString));
  clozeContent_ ← or (Get item "clozeContent") (Normal (VString EmptyString));
  isNewParagraph_ ← or (Get item "newParagraph") (Normal (VBool false));
  Normal {| id := pretty index;
            content := content_;
            subContent := subContent_;
            meaning := meaning_;
            example := example_;
            clozeContent := clozeContent_;
            isNewParagraph := isNewParagraph_ |}.

(** [rawItems.map(callback)]: only an array has a callable [map]. *)
Definition call_map {B} (rawItems : value) (callback : value -> nat -> completion B)
  : completion (list B) :=
  match rawItems with
  | VArray l => Array_map callback l
  | _ => Throw TypeError
  end.

Record ChatTurn := { turn_role : Role; turn_text : string }.

Definition chat_fallback : string := "出了點小問題，我們繼續努力！".

Definition chat_default : string := "加油！".

Definition chat_prompt (history : list ChatTurn) (currentMessage : string)
    (context : option string) : string :=
  "
    You are a friendly, encouraging robot assistant helping a child study Chinese dictation.
    Context: " +:+ string_or context "No specific list." +:+ "
    
    Current Chat History:
    " +:+ join "
" (map (fun h => Role_toString (turn_role h) +:+ ": " +:+ turn_text h) history) +:+ "
    
    User: " +:+ currentMessage +:+ "
    
    Response (Keep it short, encouraging. Use Traditional Chinese):
    ".

Section Backend.

(** [ai.models.generateContent]: the promise resolves with a response or
    rejects. *)
Variable generateContent : GenerateContentParameters -> completion GenerateContentResponse.

(** [JSON.parse]: a value, or a [SyntaxError]. *)
Variable JSON_parse : string -> completion value.

Definition analyzeMaterial_try (text : string) (files : list File)
    (mode : DictationMode) : completion (list ReturnedItem) :=
  response ← generateContent (analyzeMaterial_request text files mode);
  let jsonText := string_or (response_text response) "[]" in
  rawItems ← JSON_parse jsonText;
  call_map rawItems toDictationItem.

Definition analyzeMaterial (text : string) (files : list File)
    (mode : DictationMode) : completion (list ReturnedItem) :=
  try_catch (analyzeMaterial_try text files mode) (fun error => Normal []).

Definition chatWithAssistant_try (history : list ChatTurn) (currentMessage : string)
    (context : option string) : completion string :=
  response ← generateContent
                {| model_name := "gemini-2.5-flash";
                   contents := prompt (chat_prompt history currentMessage context);
                   config := None |};
  Normal (string_or (response_text response) chat_default).

Definition chatWithAssistant (history : list ChatTurn) (currentMessage : string)
    (context : option string) : completion string :=
  try_catch (chatWithAssistant_try history currentMessage context)
            (fun error => Normal chat_fallback).

(** The ways in which the [try] block is left by an exception: the request
    is rejected, the text of the response is not JSON, the payload is not an
    array, or one of its elements is [null] or [undefined]. *)
Definition extraction_fails (text : string) (files : list File)
    (mode : DictationMode) : bool :=
  match generateContent (analyzeMaterial_request text files mode) with
  | Throw _ => true
  | Normal response =>
      match JSON_parse (string_or (response_text response) "[]") with
      | Throw _ => true
      | Normal (VArray l) => existsb nullish l
      | Normal _ => true
      end
  end.

End Backend.

(** *** The statements of the specification about the returned items *)

Definition nonempty_string (v : value) : Prop :=
  exists s, v = VString s /\ s <> EmptyString.

Definition missing (raw : value) (k : string) : Prop :=
  property raw k = VUndefined.

(** What the specification asks of the item [it] built from the raw item
    [raw]. *)
Definition normalized_as_specified (raw : value) (it : ReturnedItem) : Prop :=
  nonempty_string (content it) /\
  nonempty_string (meaning it) /\
  (missing raw "subContent" -> subContent it = VString EmptyString) /\
  (missing raw "example" -> example it = VString EmptyString) /\
  (missing raw "clozeContent" -> clozeContent it = VString EmptyString).

(** [a || b] on values. *)
Definition value_or (a b : value) : value :=
  if ToBoolean a then a else b.

(** What [toDictationItem] does to the fields. *)
Definition normalized (raw : value) (it : ReturnedItem) : Prop :=
  content it = property raw "content" /\
  meaning it = value_or (property raw "meaning") (VString EmptyString) /\
  subContent it =
    value_or (value_or (property raw "subContent") (property raw "pinyin"))
             (VString EmptyString) /\
  example it = value_or (property raw "example") (VString EmptyString) /\
  clozeContent it = value_or (property raw "clozeContent") (VString EmptyString).

(** The raw item with the identifier that the payload supplies replaced
    ([Some v]) or taken away ([None]). *)
Definition supply_id (supplied : option value) (raw : value) : value :=
  match raw with
  | VObject m =>
      VObject match supplied with
              | Some v => <["id" := v]> m
              | None => delete "id" m
              end
  | _ => raw
  end.

Definition supply_ids (supplied : nat -> option value) (payload : value) : value :=
  match payload with
  | VArray l => VArray (imap (fun i raw => supply_id (supplied i) raw) l)
  | _ => payload
  end.

(** [JSON_parse] with the identifiers of its payload replaced. *)
Definition parse_with_ids (JSON_parse : string -> completion value)
    (supplied : nat -> option value) (s : string) : completion value :=
  match JSON_parse s with
  | Normal payload => Normal (supply_ids supplied payload)
  | Throw e => Throw e
  end.

(** The statement of the specification, for one call. *)
Definition extraction_normalizes_as_specified
    (generateContent : GenerateContentParameters -> completion GenerateContentResponse)
    (JSON_parse : string -> completion value)
    (text : string) (files : list File) (mode : DictationMode) : Prop :=
  forall (response : GenerateContentResponse) (l : list value) (items : list ReturnedItem),
    generateContent (analyzeMaterial_request text files mode) = Normal response ->
    JSON_parse (string_or (response_text response) "[]") = Normal (VArray l) ->
    analyzeMaterial generateContent JSON_parse text files mode = Normal items ->
    forall (i : nat) (raw : value) (it : ReturnedItem),
      l !! i = Some raw -> items !! i = Some it -> normalized_as_specified raw it.

(** *** Payloads that satisfy the schema *)

(** The field of the returned item that answers to the property [name] of
    the payload. *)
Definition field_of (name : string) (it : ReturnedItem) : option value :=
  if String.eqb name "content" then Some (content it)
  else if String.eqb name "subContent" then Some (subContent it)
  else if String.eqb name "meaning" then Some (meaning it)
  else if String.eqb name "example" then Some (example it)
  else if String.eqb name "clozeContent" then Some (clozeContent it)
  else if String.eqb name "newParagraph" then Some (isNewParagraph it)
  else None.

Definition has_type (type : SchemaType) (v : value) : Prop :=
  match type, v with
  | STRING, VString _ => True
  | BOOLEAN, VBool _ => True
  | _, _ => False
  end.

(** A raw item that is an object and holds every property that the schema
    requires, at the type the schema gives it. *)
Definition conforms (schema : ItemSchema) (raw : value) : Prop :=
  (exists m, raw = VObject m) /\
  Forall (fun p => prop_name p ∈ required schema ->
                   has_type (prop_type p) (property raw (prop_name p)))
         (properties schema).

(** *** The failure policy as the specification words it *)

(** A malformed payload: a parsed value that is not an array of items of
    the schema that the request asked for. *)
Definition malformed (mode : DictationMode) (payload : value) : Prop :=
  ~ exists l, payload = VArray l /\ Forall (conforms (itemSchema mode)) l.

(** The failures that the specification lists: the transport fails, the
    response cannot be parsed, or the payload is malformed. *)
Definition failure_as_specified
    (generateContent : GenerateContentParameters -> completion GenerateContentResponse)
    (JSON_parse : string -> completion value)
    (text : string) (files : list File) (mode : DictationMode) : Prop :=
  (exists e, generateContent (analyzeMaterial_request text files mode) = Throw e) \/
  (exists response e,
     generateContent (analyzeMaterial_request text files mode) = Normal response /\
     JSON_parse (string_or (response_text response) "[]") = Throw e) \/
  (exists response payload,
     generateContent (analyzeMaterial_request text files mode) = Normal response /\
     JSON_parse (string_or (response_text response) "[]") = Normal payload /\
     malformed mode payload).

Definition failure_is_empty_as_specified
    (generateContent : GenerateContentParameters -> completion GenerateContentResponse)
    (JSON_parse : string -> completion value)
    (text : string) (files : list File) (mode : DictationMode) : Prop :=
  failure_as_specified generateContent JSON_parse text files mode ->
  analyzeMaterial generateContent JSON_parse text files mode = Normal [].

(** *** [generateSpeech] *)

Inductive Modality := AUDIO.

(** The request of [generateSpeech]: the model, the text of the single
    part, the response modalities and the name of the prebuilt voice. *)
Record SpeechParameters := {
  speech_model : string;
  speech_text : string;
  responseModalities : list Modality;
  voiceName : string
}.

(** The response, as far as [generateSpeech] looks into it; every level may
    be missing. *)
Record Blob := { blob_data : option string }.

Record ResponsePart := { part_inlineData : option Blob }.

Record ResponseContent := { content_parts : option (list ResponsePart) }.

Record Candidate := { candidate_content : option ResponseContent }.

Record SpeechResponse := { candidates : option (list Candidate) }.

(** [response.candidates?.[0]?.content?.parts?.[0]?.inlineData?.data] *)
Definition base64Audio (response : SpeechResponse) : option string :=
  cs ← candidates response;
  candidate ← cs !! 0;
  c ← candidate_content candidate;
  ps ← content_parts c;
  part ← ps !! 0;
  blob ← part_inlineData part;
  blob_data blob.

(** [s || null] for a value typed [string | undefined]. *)
Definition or_null (s : option string) : option string :=
  match s with
  | Some (String c r) => Some (String c r)
  | _ => None
  end.

Definition generateSpeech_request (text : string) : SpeechParameters :=
  {| speech_model := "gemini-2.5-flash-preview-tts";
     speech_text := text;
     responseModalities := [AUDIO];
     voiceName := "Kore" |}.

Section Speech.

Variable generateSpeechContent : SpeechParameters -> completion SpeechResponse.

Definition generateSpeech_try (text : string) : completion (option string) :=
  response ← generateSpeechContent (generateSpeech_request text);
  Normal (or_null (base64Audio response)).

(** [None] is [null]. *)
Definition generateSpeech (text : string) : completion (option string) :=
  try_catch (generateSpeech_try text) (fun error => Normal None).

End Speech.

End GeminiService.

(** ** Concrete payloads and backends *)
Module Examples.
Import JS Types GeminiService.

Definition quoted (s : string) : string := dquote +:+ s +:+ dquote.

Definition sentence : string := "今天是星期天，天氣晴朗。".

Definition sentence_cloze : string := "______是______，______。".

(** A paragraph payload: every property that the paragraph schema requires,
    and no [meaning]. *)
Definition paragraph_text : string :=
  "[{" +:+ quoted "content" +:+ ":" +:+ quoted sentence +:+ "," +:+
  quoted "clozeContent" +:+ ":" +:+ quoted sentence_cloze +:+ "," +:+
  quoted "newParagraph" +:+ ":true}]".

Definition paragraph_payload : value :=
  VArray [VObject (<["content" := VString sentence]>
                  (<["clozeContent" := VString sentence_cloze]>
                  (<["newParagraph" := VBool true]> ∅)))].

(** An idiom payload whose items carry identifiers of their own. *)
Definition idiom_text : string :=
  "[{" +:+ quoted "id" +:+ ":" +:+ quoted "a7" +:+ "," +:+
  quoted "content" +:+ ":" +:+ quoted "一心一意" +:+ "," +:+
  quoted "meaning" +:+ ":" +:+ quoted "專心" +:+ "},{" +:+
  quoted "id" +:+ ":12," +:+
  quoted "content" +:+ ":" +:+ quoted "三心兩意" +:+ "," +:+
  quoted "meaning" +:+ ":" +:+ quoted "不專心" +:+ "}]".

Definition idiom_payload : value :=
  VArray [VObject (<["id" := VString "a7"]>
                  (<["content" := VString "一心一意"]>
                  (<["meaning" := VString "專心"]> ∅)));
          VObject (<["id" := VNumber (Finite (QArith_base.Qmake 12 1))]>
                  (<["content" := VString "三心兩意"]>
                  (<["meaning" := VString "不專心"]> ∅)))].

(** [JSON.parse] on the texts above; anything else is taken not to parse. *)
Definition JSON_parse (s : string) : completion value :=
  if String.eqb s paragraph_text then Normal paragraph_payload
  else if String.eqb s idiom_text then Normal idiom_payload
  else if String.eqb s "[]" then Normal (VArray [])
  else Throw SyntaxError.

Definition responds (text : string)
  : GenerateContentParameters -> completion GenerateContentResponse :=
  fun _ => Normal {| response_text := Some text |}.

Definition offline : GenerateContentParameters -> completion GenerateContentResponse :=
  fun _ => Throw (HostError "Failed to fetch").

Definition paragraph_raw : value :=
  VObject (<["content" := VString sentence]>
          (<["clozeContent" := VString sentence_cloze]>
          (<["newParagraph" := VBool true]> ∅))).

(** What [analyzeMaterial] makes of [paragraph_payload]. *)
Definition paragraph_item : ReturnedItem :=
  {| id := "0";
     content := VString sentence;
     subContent := VString EmptyString;
     meaning := VString EmptyString;
     example := VString EmptyString;
     clozeContent := VString sentence_cloze;
     isNewParagraph := VBool true |}.

(** What [analyzeMaterial] makes of [idiom_payload]. *)
Definition idiom_items : list ReturnedItem :=
  [ {| id := "0";
       content := VString "一心一意";
       subContent := VString EmptyString;
       meaning := VString "專心";
       example := VString EmptyString;
       clozeContent := VString EmptyString;
       isNewParagraph := VBool false |};
    {| id := "1";
       content := VString "三心兩意";
       subContent := VString EmptyString;
       meaning := VString "不專心";
       example := VString EmptyString;
       clozeContent := VString EmptyString;
       isNewParagraph := VBool false |} ].

(** A speech backend that answers with audio, and one that is down. *)
Definition speech_with (audio : string)
  : SpeechParameters -> completion SpeechResponse :=
  fun _ => Normal
    {| candidates :=
         Some [{| candidate_content :=
                    Some {| content_parts :=
                              Some [{| part_inlineData :=
                                         Some {| blob_data := Some audio |} |}] |} |}] |}.

Definition speech_offline : SpeechParameters -> completion SpeechResponse :=
  fun _ => Throw (HostError "Failed to fetch").

(** A payload that parses and is no list of items: a number, a string and
    an object without properties. *)
Definition mixed_text : string := "[1," +:+ quoted "x" +:+ ",{}]".

Definition mixed_payload : list value :=
  [VNumber (Finite (QArith_base.Qmake 1 1)); VString "x"; VObject ∅].

Definition JSON_parse_mixed (s : string) : completion value :=
  if String.eqb s mixed_text then Normal (VArray mixed_payload) else JSON_parse s.

(** What [analyzeMaterial] makes of [mixed_payload]. *)
Definition blank_item (id : string) : ReturnedItem :=
  {| id := id;
     content := VUndefined;
     subContent := VString EmptyString;
     meaning := VString EmptyString;
     example := VString EmptyString;
     clozeContent := VString EmptyString;
     isNewParagraph := VBool false |}.

(** A backend whose response carries no text, and one that answers a chat
    message. *)
Definition silent : GenerateContentParameters -> completion GenerateContentResponse :=
  fun _ => Normal {| response_text := None |}.

Definition lion_answer : string := "獅子是一種大型貓科動物。".

End Examples.

(** ** White space and [String.prototype.trim] *)

Definition utf8 (bytes : list nat) : string :=
  String.string_of_list_ascii (map Ascii.ascii_of_nat bytes).

(** The code points of the [WhiteSpace] and [LineTerminator] productions of
    ECMAScript, which are the ones [trim] removes, in UTF-8. *)
Definition whiteSpace : list string :=
  [ utf8 [9]; utf8 [10]; utf8 [11]; utf8 [12]; utf8 [13]; utf8 [32];
    utf8 [194; 160];                                   (* U+00A0 *)
    utf8 [225; 154; 128];                              (* U+1680 *)
    utf8 [226; 128; 128]; utf8 [226; 128; 129]; utf8 [226; 128; 130];
    utf8 [226; 128; 131]; utf8 [226; 128; 132]; utf8 [226; 128; 133];
    utf8 [226; 128; 134]; utf8 [226; 128; 135]; utf8 [226; 128; 136];
    utf8 [226; 128; 137]; utf8 [226; 128; 138];        (* U+2000 .. U+200A *)
    utf8 [226; 128; 168]; utf8 [226; 128; 169];        (* U+2028, U+2029 *)
    utf8 [226; 128; 175];                              (* U+202F *)
    utf8 [226; 129; 159];                              (* U+205F *)
    utf8 [227; 128; 128];                              (* U+3000 *)
    utf8 [239; 187; 191] ].                            (* U+FEFF *)

Fixpoint strip_prefix (p s : string) : option string :=
  match p, s with
  | EmptyString, _ => Some s
  | String a p', String b s' => if Ascii.eqb a b then strip_prefix p' s' else None
  | String _ _, EmptyString => None
  end.

(** The rest of [s] after the first entry of [table] that [s] starts with. *)
Fixpoint strip_any (table : list string) (s : string) : option string :=
  match table with
  | [] => None
  | w :: table' =>
      match strip_prefix w s with
      | Some s' => Some s'
      | None => strip_any table' s
      end
  end.

Fixpoint strip_all (table : list string) (fuel : nat) (s : string) : string :=
  match fuel with
  | O => s
  | S fuel' =>
      match strip_any table s with
      | Some s' => strip_all table fuel' s'
      | None => s
      end
  end.

Definition trimStart (s : string) : string :=
  strip_all whiteSpace (String.length s) s.

Definition trimEnd (s : string) : string :=
  String.rev (strip_all (map String.rev whiteSpace) (String.length s) (String.rev s)).

Definition trim (s : string) : string := trimEnd (trimStart s).

(** A string made of white space only (the empty string included). *)
Inductive WhiteSpaceOnly : string -> Prop :=
| WhiteSpaceOnly_empty : WhiteSpaceOnly EmptyString
| WhiteSpaceOnly_cons w s :
    w ∈ whiteSpace -> WhiteSpaceOnly s -> WhiteSpaceOnly (w +:+ s).

(** ** [App.tsx] *)
Module App.
Import Types.

Definition initialState : AppState :=
  {| view := setup;
     mode := vocab;
     audioLanguage := cantonese;
     dictationList := [];
     currentIndex := 0 |}.

(** The views a start request may ask for: ['practice' | 'worksheet']. *)
Inductive TargetView := toPractice | toWorksheet.

Definition TargetView_view (targetView : TargetView) : View :=
  match targetView with
  | toPractice => practice
  | toWorksheet => worksheet
  end.

Definition content_missing_notice : string :=
  "未能提取到內容，請檢查文件是否清晰。(Could not extract content, please check your files)".

(** What [App] owns: its state and the [alert] boxes shown so far. *)
Record World := {
  appState : AppState;
  alerts : list string
}.

(** [targetView] is [None] when the caller leaves the argument out. *)
Definition handleStart (items : list DictationItem) (mode : DictationMode)
    (language : AudioLanguage) (targetView : option TargetView) (w : World) : World :=
  if (length items =? 0)%nat then
    {| appState := appState w;
       alerts := alerts w ++ [content_missing_notice] |}
  else
    (* [...prev] with each of its fields overwritten *)
    {| appState :=
         {| view := TargetView_view (default toPractice targetView);
            mode := mode;
            audioLanguage := language;
            dictationList := items;
            currentIndex := 0 |};
       alerts := alerts w |}.

Definition handleBack (w : World) : World :=
  let prev := appState w in
  {| appState :=
       {| view := setup;
          mode := Types.mode prev;
          audioLanguage := Types.audioLanguage prev;
          dictationList := [];
          currentIndex := Types.currentIndex prev |};
     alerts := alerts w |}.

(** What happens to [App]: a start request, or a press on a back
    button. *)
Inductive Event :=
| start (items : list DictationItem) (mode : DictationMode)
        (language : AudioLanguage) (targetView : option TargetView)
| back.

Definition step (e : Event) (w : World) : World :=
  match e with
  | start items mode language targetView =>
      handleStart items mode language targetView w
  | back => handleBack w
  end.

Definition reachable (w : World) : Prop :=
  exists es : list Event,
    w = foldl (fun w e => step e w) {| appState := initialState; alerts := [] |} es.

End App.

(** ** [components/Setup.tsx] *)
Module Setup.
Import JS Types.

Record File := { mimeType : string; data : string; name : string }.

Record State := {
  text : string;
  mode : DictationMode;
  language : AudioLanguage;
  loading : bool;
  files : list File
}.

Definition initialState : State :=
  {| text := EmptyString;
     mode := vocab;
     language := cantonese;
     loading := false;
     files := [] |}.

Definition setLoading (b : bool) (s : State) : State :=
  {| text := text s; mode := mode s; language := language s;
     loading := b; files := files s |}.

(** The arguments of one call of [analyzeMaterial]. *)
Record ExtractionCall := {
  call_text : string;
  call_files : list File;
  call_mode : DictationMode
}.

(** The component, what its parent owns, and the extraction calls made. *)
Record World (P : Type) := {
  state : State;
  parent : P;
  extractionCalls : list ExtractionCall
}.
Arguments state {P} _.
Arguments parent {P} _.
Arguments extractionCalls {P} _.

Section Component.

(** The imported [analyzeMaterial], at its declared type. *)
Variable analyzeMaterial :
  string -> list File -> DictationMode -> completion (list DictationItem).

(** The [onStart] property, acting on what the parent owns. *)
Context {P : Type}.
Variable onStart :
  list DictationItem -> DictationMode -> AudioLanguage -> App.TargetView -> P -> P.

(** [text], [files], [mode] and [language] are the ones of the render in
    which the button was pressed.  A rejected [await] would leave the
    function before [setLoading(false)]. *)
Definition handleProcess (targetView : App.TargetView) (w : World P) : World P :=
  let s := state w in
  if String.eqb (trim (text s)) EmptyString && (length (files s) =? 0)%nat then w
  else
    let calls := extractionCalls w ++
                 [{| call_text := text s; call_files := files s; call_mode := mode s |}] in
    match analyzeMaterial (text s) (files s) (mode s) with
    | Normal items =>
        {| state := setLoading false (setLoading true s);
           parent := onStart items (mode s) (language s) targetView (parent w);
           extractionCalls := calls |}
    | Throw _ =>
        {| state := setLoading true s;
           parent := parent w;
           extractionCalls := calls |}
    end.

End Component.

(** *** The other handlers of the component *)

Definition setFiles (f : list File -> list File) (s : State) : State :=
  {| text := text s; mode := mode s; language := language s;
     loading := loading s; files := f (files s) |}.

(** [Array.prototype.filter] with a test that looks at the index. *)
Fixpoint filter_from {A} (test : A -> nat -> bool) (index : nat) (l : list A) : list A :=
  match l with
  | [] => []
  | x :: l' =>
      if test x index then x :: filter_from test (S index) l'
      else filter_from test (S index) l'
  end.

Definition removeFile (index : nat) (s : State) : State :=
  setFiles (filter_from (fun _ i => negb (i =? index)%nat) 0) s.

(** The [disabled] attribute of the two action buttons. *)
Definition processDisabled (s : State) : bool :=
  loading s || (String.eqb (trim (text s)) EmptyString && (length (files s) =? 0)%nat).

(** [String.prototype.split] with a separator of one character. *)
Fixpoint split (sep : Ascii.ascii) (s : string) : list string :=
  match s with
  | EmptyString => [EmptyString]
  | String c s' =>
      if Ascii.eqb c sep then EmptyString :: split sep s'
      else match split sep s' with
           | [] => [String c EmptyString]
           | piece :: pieces => String c piece :: pieces
           end
  end.

Definition comma : Ascii.ascii := Ascii.ascii_of_nat 44.

(** [result.split(',')[1]]: [None] is [undefined]. *)
Definition base64Data (result : string) : option string :=
  split comma result !! 1.

(** The file object handed to the reader, as far as the handler reads it. *)
Record PickedFile := { file_type : string; file_name : string }.

(** An entry of [files] as [reader.onload] builds it: its [data] is
    [undefined] when the result of the reader holds no comma. *)
Record LoadedFile := {
  loaded_mimeType : string;
  loaded_data : option string;
  loaded_name : string
}.

(** [reader.onload], as the function of [prev] handed to [setFiles]. *)
Definition onload (file : PickedFile) (result : string) (prev : list LoadedFile)
  : list LoadedFile :=
  prev ++ [{| loaded_mimeType := file_type file;
              loaded_data := base64Data result;
              loaded_name := file_name file |}].

(** The entry at its declared type, when its [data] is a string. *)
Definition declared (f : LoadedFile) : option File :=
  d ← loaded_data f;
  Some {| mimeType := loaded_mimeType f; data := d; name := loaded_name f |}.

(** A data URL in base 64, the form of what [FileReader.readAsDataURL]
    hands to [onload]: [type] is the media type that the reader wrote,
    which need not be the [type] of the file, and [b64] the bytes. *)
Definition dataURL (type b64 : string) : string :=
  "data:" +:+ type +:+ ";base64," +:+ b64.

Definition has_comma (s : string) : bool :=
  existsb (Ascii.eqb comma) (String.list_ascii_of_string s).

End Setup.

(** [<Setup onStart={handleStart} />] *)
Definition Setup_onStart (items : list Types.DictationItem) (mode : Types.DictationMode)
    (language : Types.AudioLanguage) (targetView : App.TargetView) (w : App.World)
  : App.World :=
  App.handleStart items mode language (Some targetView) w.

(** ** The [Practice] component *)
Module Practice.
Import JS Types.

Inductive Stage := reading | revealed.

Record State := {
  currentIndex : nat;
  stage : Stage;
  robotEmotion : RobotEmotion;
  messages : list ChatMessage;
  chatInput : string;
  isListening : bool;
  inputLang : string
}.

Record Props := {
  items : list DictationItem;
  mode : DictationMode;
  audioLanguage : AudioLanguage
}.

Definition textMessage (id : string) (role : Role) (text : string) : ChatMessage :=
  {| Types.id := id; Types.role := role; Types.text := Some text;
     audioData := None; isAudio := None |}.

Definition initialState : State :=
  {| currentIndex := 0;
     stage := reading;
     robotEmotion := idle;
     messages :=
       [textMessage "1" model "你好！我是你的默書小助手。準備好了嗎？點擊播放按鈕開始吧！"];
     chatInput := EmptyString;
     isListening := false;
     inputLang := "zh-HK" |}.

(** *** The browser *)

Record SpeechSynthesisVoice := { voice_name : string; lang : string }.

Record SpeechSynthesisUtterance := {
  utterance_text : string;
  voice : option SpeechSynthesisVoice;
  utterance_lang : string;
  rate : QArith_base.Q
}.

(** [speechSynthesis] is [None] when [window] has no such property, and
    otherwise holds what [getVoices()] returns; [SpeechRecognition] tells
    whether one of the two recognition constructors exists. *)
Record Window := {
  speechSynthesis : option (list SpeechSynthesisVoice);
  SpeechRecognition : bool
}.

Record SpeechRecognitionAlternative := { transcript : string }.

(** A recognition result event: its results, each a list of alternatives. *)
Record SpeechRecognitionEvent := {
  results : list (list SpeechRecognitionAlternative)
}.

(** *** Handlers as scripts

    A handler is run to its end before React renders again, so it is
    represented by the commands it issues, in order, and by how it ends. *)
Record Script (C A : Type) := {
  cmds : list C;
  result : completion A
}.
Arguments cmds {C A} _.
Arguments result {C A} _.

Inductive Cmd :=
| setCurrentIndex (f : nat -> nat)
| setStage (s : Stage)
| setRobotEmotion (e : RobotEmotion)
| setMessages (f : list ChatMessage -> list ChatMessage)
| setChatInput (s : string)
| setIsListening (b : bool)
| setInputLang (f : string -> string)
| speechSynthesis_cancel
| speechSynthesis_speak (u : SpeechSynthesisUtterance)
| alert (msg : string)
| setTimeout (callback : Window -> Script Cmd unit) (ms : N)
| recognition_start (lang : string)
| recognition_stop.

#[export] Instance Script_ret {C} : MRet (Script C) :=
  fun A a => {| cmds := []; result := Normal a |}.

#[export] Instance Script_bind {C} : MBind (Script C) :=
  fun A B k s =>
    match result s with
    | Normal a => {| cmds := cmds s ++ cmds (k a); result := result (k a) |}
    | Throw e => {| cmds := cmds s; result := Throw e |}
    end.

Definition tell {C} (c : C) : Script C unit :=
  {| cmds := [c]; result := Normal tt |}.

Definition throw {C A} (e : exn) : Script C A :=
  {| cmds := []; result := Throw e |}.

Definition issue {C} (cs : list C) : Script C unit :=
  {| cmds := cs; result := Normal tt |}.

(** [o.f] for [o] typed as an item but possibly [undefined]. *)
Definition field {C A} (o : option DictationItem) (f : DictationItem -> A) : Script C A :=
  match o with
  | Some item => mret (f item)
  | None => throw TypeError
  end.

(** [String.prototype.includes] *)
Fixpoint includes (needle s : string) : bool :=
  match strip_prefix needle s with
  | Some _ => true
  | None =>
      match s with
      | EmptyString => false
      | String _ s' => includes needle s'
      end
  end.

Definition tts_unsupported_notice : string :=
  "你的瀏覽器不支持語音功能 (Browser TTS not supported)".

Definition stt_unsupported_notice : string :=
  "你的瀏覽器不支持語音識別功能 (Browser does not support Speech Recognition)".

Definition finished_text : string := "恭喜你！完成了所有默書內容！🎉".

Definition meaning_prefix : string := "意思是：".

Definition slow_rate : QArith_base.Q := QArith_base.Qmake 7 10.

Definition normal_rate : QArith_base.Q := QArith_base.Qmake 9 10.

Definition is_cantonese (l : AudioLanguage) : bool :=
  match l with
  | cantonese => true
  | mandarin => false
  end.

Section Component.

Variable props : Props.

Definition currentItem (st : State) : option DictationItem :=
  items props !! currentIndex st.

(** *** Audio logic *)

(** The utterance that [speakText] builds: its voice, language and rate. *)
Definition makeUtterance (voices : list SpeechSynthesisVoice) (text : string)
    (isSlow : bool) : SpeechSynthesisUtterance :=
  let cantoneseVoice :=
    find (fun v => includes "HK" (lang v) || includes "yue" (lang v)) voices in
  let mandarinVoice :=
    find (fun v => includes "CN" (lang v) || includes "zh" (lang v)) voices in
  let rate := if isSlow then slow_rate else normal_rate in
  match audioLanguage props, cantoneseVoice with
  | cantonese, Some v =>
      {| utterance_text := text; voice := Some v;
         utterance_lang := "zh-HK"; rate := rate |}
  | _, _ =>
      {| utterance_text := text; voice := mandarinVoice;
         utterance_lang := "zh-CN"; rate := rate |}
  end.

Definition speakText (window : Window) (text : string) (isSlow : bool)
  : Script Cmd unit :=
  tell (setRobotEmotion speaking);;
  if is_cantonese (audioLanguage props) || bool_decide (is_Some (speechSynthesis window))
  then
    match speechSynthesis window with
    | None => throw TypeError
    | Some voices =>
        tell speechSynthesis_cancel;;
        tell (speechSynthesis_speak (makeUtterance voices text isSlow))
    end
  else
    tell (setRobotEmotion idle);;
    tell (alert tts_unsupported_notice).

(** [utterance.onend] and [utterance.onerror] *)
Definition utterance_onend : list Cmd := [setRobotEmotion idle].

Definition utterance_onerror : list Cmd := [setRobotEmotion idle].

Definition play_delay : N := 2000.

(** The function handed to [setTimeout] in idiom mode; it closes over the
    item of the render in which the button was pressed. *)
Definition speakMeaning (st : State) (window : Window) : Script Cmd unit :=
  meaning ← field (currentItem st) meaning;
  speakText window (meaning_prefix +:+ template_hole meaning) false.

Definition handlePlayAudio (window : Window) (st : State) : Script Cmd unit :=
  match mode props with
  | paragraph =>
      text ← field (currentItem st) content;
      speakText window text true
  | idiom =>
      text ← field (currentItem st) content;
      speakText window text false;;
      tell (setTimeout (speakMeaning st) play_delay)
  | vocab =>
      text ← field (currentItem st) content;
      speakText window text false
  end.

(** *** Flow logic *)

(** [now] is what [Date.now()] returns. *)
Definition handleNext (now : N) (st : State) : list Cmd :=
  match stage st with
  | reading => [setStage revealed]
  | revealed =>
      if (Z.of_nat (currentIndex st) <? Z.of_nat (length (items props)) - 1)%Z then
        [setCurrentIndex (fun prev => prev + 1); setStage reading; setRobotEmotion idle]
      else
        [setMessages (fun prev => prev ++ [textMessage (pretty now) model finished_text]);
         setRobotEmotion happy]
  end.

(** The effect that depends on [currentIndex]. *)
Definition stageResetEffect : list Cmd := [setStage reading].

(** *** Voice input *)

Definition toggleListening (window : Window) (st : State) : list Cmd :=
  if isListening st then [recognition_stop; setIsListening false]
  else if negb (SpeechRecognition window) then [alert stt_unsupported_notice]
  else [recognition_start (inputLang st)].

Definition recognition_onstart (window : Window) : Script Cmd unit :=
  tell (setIsListening true);;
  match speechSynthesis window with
  | None => throw TypeError
  | Some _ => tell speechSynthesis_cancel
  end.

(** [result[0].transcript] *)
Definition top_transcript (result : list SpeechRecognitionAlternative)
  : completion string :=
  match result !! 0 with
  | Some alternative => Normal (transcript alternative)
  | None => Throw TypeError
  end.

Definition recognition_onresult (event : SpeechRecognitionEvent) : Script Cmd unit :=
  match Array_map (fun result (_ : nat) => top_transcript result) (results event) with
  | Normal transcripts => tell (setChatInput (join EmptyString transcripts))
  | Throw e => throw e
  end.

Definition recognition_onerror : list Cmd := [setIsListening false].

Definition recognition_onend : list Cmd := [setIsListening false].

Definition cycleInputLang : list Cmd :=
  [setInputLang (fun prev =>
     if String.eqb prev "zh-HK" then "zh-CN"
     else if String.eqb prev "zh-CN" then "en-US"
     else "zh-HK")].

(** *** Chat logic *)

Record ChatCall := {
  call_history : list GeminiService.ChatTurn;
  call_message : string;
  call_context : string
}.

(** [handleChatSubmit] up to its call of [chatWithAssistant]; [None] when
    the input is blank and nothing is sent. *)
Definition handleChatSubmit (now : N) (st : State) : Script Cmd (option ChatCall) :=
  if String.eqb (trim (chatInput st)) EmptyString then mret None
  else
    let userMsg := textMessage (pretty now) user (chatInput st) in
    issue [setMessages (fun prev => prev ++ [userMsg]);
           setChatInput EmptyString;
           setRobotEmotion thinking];;
    let historyForAi :=
      map (fun m => {| GeminiService.turn_role := role m;
                       GeminiService.turn_text := string_or (text m) EmptyString |})
          (drop (length (messages st) - 5) (messages st)) in
    current ← field (currentItem st) content;
    meaning ← field (currentItem st) meaning;
    mret (Some {| call_history := historyForAi;
                  call_message := chatInput st;
                  call_context :=
                    "Mode: " +:+ DictationMode_toString (mode props) +:+
                    ". Current Item: " +:+ current +:+
                    ". Meaning: " +:+ template_hole meaning +:+
                    ". Full List: " +:+ join ", " (map content (items props)) |}).

(** [handleChatSubmit] once [chatWithAssistant] has answered [reply], as far
    as the state of the component goes. *)
Definition handleChatSubmit_reply (now : N) (reply : string) : list Cmd :=
  [setMessages (fun prev => prev ++ [textMessage (pretty now) model reply]);
   setRobotEmotion idle].

End Component.

(** *** State updates and renders *)

Definition apply (c : Cmd) (st : State) : State :=
  match c with
  | setCurrentIndex f =>
      {| currentIndex := f (currentIndex st); stage := stage st;
         robotEmotion := robotEmotion st; messages := messages st;
         chatInput := chatInput st; isListening := isListening st;
         inputLang := inputLang st |}
  | setStage s =>
      {| currentIndex := currentIndex st; stage := s;
         robotEmotion := robotEmotion st; messages := messages st;
         chatInput := chatInput st; isListening := isListening st;
         inputLang := inputLang st |}
  | setRobotEmotion e =>
      {| currentIndex := currentIndex st; stage := stage st;
         robotEmotion := e; messages := messages st;
         chatInput := chatInput st; isListening := isListening st;
         inputLang := inputLang st |}
  | setMessages f =>
      {| currentIndex := currentIndex st; stage := stage st;
         robotEmotion := robotEmotion st; messages := f (messages st);
         chatInput := chatInput st; isListening := isListening st;
         inputLang := inputLang st |}
  | setChatInput s =>
      {| currentIndex := currentIndex st; stage := stage st;
         robotEmotion := robotEmotion st; messages := messages st;
         chatInput := s; isListening := isListening st;
         inputLang := inputLang st |}
  | setIsListening b =>
      {| currentIndex := currentIndex st; stage := stage st;
         robotEmotion := robotEmotion st; messages := messages st;
         chatInput := chatInput st; isListening := b;
         inputLang := inputLang st |}
  | setInputLang f =>
      {| currentIndex := currentIndex st; stage := stage st;
         robotEmotion := robotEmotion st; messages := messages st;
         chatInput := chatInput st; isListening := isListening st;
         inputLang := f (inputLang st) |}
  | _ => st
  end.

(** The state of the next render: the updates queued by a handler, applied
    in the order in which they were queued. *)
Definition commit (cs : list Cmd) (st : State) : State :=
  foldl (fun st c => apply c st) st cs.

(** The renders that follow a handler: the one with its updates and, when
    [currentIndex] has changed, the one after the effect has run. *)
Definition renders (cs : list Cmd) (st : State) : list State :=
  let st1 := commit cs st in
  if decide (currentIndex st1 = currentIndex st) then [st1]
  else [st1; commit stageResetEffect st1].

Definition settle (cs : list Cmd) (st : State) : State :=
  List.last (renders cs st) st.

(** How often the stage turns into [reading] along a sequence of renders. *)
Fixpoint becomes_reading (prev : Stage) (rs : list State) : nat :=
  match rs with
  | [] => 0
  | r :: rs' =>
      match prev, stage r with
      | revealed, reading => S (becomes_reading reading rs')
      | _, s => becomes_reading s rs'
      end
  end.

(** *** The component in its browser *)

Record World := {
  ui : State;
  clock : N;
  timers : list (N * (Window -> Script Cmd unit));
  nowSpeaking : option SpeechSynthesisUtterance;
  spoken : list (N * SpeechSynthesisUtterance);
  alerts : list string;
  recognizing : option string
}.

Definition initialWorld : World :=
  {| ui := initialState; clock := 0%N; timers := []; nowSpeaking := None;
     spoken := []; alerts := []; recognizing := None |}.

(** The part of a command that reaches the browser.  [spoken] keeps every
    utterance handed to [speechSynthesis.speak], with the time of the call. *)
Definition exec (c : Cmd) (w : World) : World :=
  match c with
  | speechSynthesis_cancel =>
      {| ui := ui w; clock := clock w; timers := timers w; nowSpeaking := None;
         spoken := spoken w; alerts := alerts w; recognizing := recognizing w |}
  | speechSynthesis_speak u =>
      {| ui := ui w; clock := clock w; timers := timers w; nowSpeaking := Some u;
         spoken := spoken w ++ [(clock w, u)]; alerts := alerts w;
         recognizing := recognizing w |}
  | alert msg =>
      {| ui := ui w; clock := clock w; timers := timers w;
         nowSpeaking := nowSpeaking w; spoken := spoken w;
         alerts := alerts w ++ [msg]; recognizing := recognizing w |}
  | setTimeout callback ms =>
      {| ui := ui w; clock := clock w;
         timers := timers w ++ [((clock w + ms)%N, callback)];
         nowSpeaking := nowSpeaking w; spoken := spoken w;
         alerts := alerts w; recognizing := recognizing w |}
  | recognition_start lang =>
      {| ui := ui w; clock := clock w; timers := timers w;
         nowSpeaking := nowSpeaking w; spoken := spoken w;
         alerts := alerts w; recognizing := Some lang |}
  | recognition_stop =>
      {| ui := ui w; clock := clock w; timers := timers w;
         nowSpeaking := nowSpeaking w; spoken := spoken w;
         alerts := alerts w; recognizing := None |}
  | _ => w
  end.

Definition with_ui (st : State) (w : World) : World :=
  {| ui := st; clock := clock w; timers := timers w; nowSpeaking := nowSpeaking w;
     spoken := spoken w; alerts := alerts w; recognizing := recognizing w |}.

Definition with_clock (t : N) (w : World) : World :=
  {| ui := ui w; clock := t; timers := timers w; nowSpeaking := nowSpeaking w;
     spoken := spoken w; alerts := alerts w; recognizing := recognizing w |}.

Definition with_timers (ts : list (N * (Window -> Script Cmd unit))) (w : World) : World :=
  {| ui := ui w; clock := clock w; timers := ts; nowSpeaking := nowSpeaking w;
     spoken := spoken w; alerts := alerts w; recognizing := recognizing w |}.

Definition silence (w : World) : World :=
  {| ui := ui w; clock := clock w; timers := timers w; nowSpeaking := None;
     spoken := spoken w; alerts := alerts w; recognizing := recognizing w |}.

(** The commands of one handler or callback: the browser sees them in
    order, the component renders with all of its updates. *)
Definition run (cs : list Cmd) (w : World) : World :=
  with_ui (settle cs (ui w)) (foldl (fun w c => exec c w) w cs).

Definition fire (window : Window) (w : World)
    (timer : N * (Window -> Script Cmd unit)) : World :=
  run (cmds (timer.2 window)) (with_clock timer.1 w).

(** [dt] milliseconds go by: the timers that expire meanwhile fire, each at
    its own time.  All timers of this component have the same delay, so they
    expire in the order in which they were set. *)
Definition elapse (window : Window) (dt : N) (w : World) : World :=
  let target := (clock w + dt)%N in
  let due := filter (fun timer => (timer.1 <= target)%N) (timers w) in
  let pending := filter (fun timer => ¬ (timer.1 <= target)%N) (timers w) in
  with_clock target (foldl (fire window) (with_timers pending w) due).

Inductive Event :=
| click_next (now : N)
| click_play
| click_mascot
| click_mic
| click_lang
| input_change (value : string)
| chat_submit (now : N)
| chat_reply (now : N) (reply : string)
| on_recognition_start
| on_recognition_result (event : SpeechRecognitionEvent)
| on_recognition_error
| on_recognition_end
| on_utterance_end
| on_utterance_error
| time_passes (dt : N).

Definition step (props : Props) (window : Window) (e : Event) (w : World) : World :=
  match e with
  | click_next now => run (handleNext props now (ui w)) w
  | click_play => run (cmds (handlePlayAudio props window (ui w))) w
  | click_mascot => run [setRobotEmotion happy] w
  | click_mic => run (toggleListening window (ui w)) w
  | click_lang => run cycleInputLang w
  | input_change value => run [setChatInput value] w
  | chat_submit now => run (cmds (handleChatSubmit props now (ui w))) w
  | chat_reply now reply => run (handleChatSubmit_reply now reply) w
  | on_recognition_start => run (cmds (recognition_onstart window)) w
  | on_recognition_result event => run (cmds (recognition_onresult event)) w
  | on_recognition_error => run recognition_onerror w
  | on_recognition_end => run recognition_onend w
  | on_utterance_end => run utterance_onend (silence w)
  | on_utterance_error => run utterance_onerror (silence w)
  | time_passes dt => elapse window dt w
  end.

Definition steps (props : Props) (window : Window) (es : list Event) (w : World) : World :=
  foldl (fun w e => step props window e w) w es.

(** *** The statements of the specification about the session *)

(** [advance]: [handleNext] in the [revealed] stage, up to the next render
    at rest. *)
Definition advance (props : Props) (now : N) (st : State) : State :=
  settle (handleNext props now st) st.

Definition has_next (props : Props) (st : State) : Prop :=
  (Z.of_nat (currentIndex st) < Z.of_nat (length (items props)) - 1)%Z.

Definition finished_message (now : N) : ChatMessage :=
  textMessage (pretty now) model finished_text.

(** What the specification asks of [advance] in the state [st]: the last
    clause is the one about the calls that follow the terminal signal. *)
Definition advance_as_specified (props : Props) (st : State) : Prop :=
  stage st = revealed ->
  forall now : N,
    currentIndex st <= currentIndex (advance props now st) /\
    (has_next props st ->
     currentIndex (advance props now st) = S (currentIndex st)) /\
    (~ has_next props st ->
     currentIndex (advance props now st) = currentIndex st /\
     messages (advance props now st) = messages st ++ [finished_message now] /\
     forall now' : N,
       advance props now' (advance props now st) = advance props now st).

(** A result event as the recognizer delivers it: every result has a best
    alternative. *)
Definition well_formed (event : SpeechRecognitionEvent) : Prop :=
  Forall (fun result => result <> []) (results event).

(** The best transcripts of an event, concatenated in the order of its
    results. *)
Definition top_transcripts (event : SpeechRecognitionEvent) : string :=
  join EmptyString
       (map (fun result => from_option transcript EmptyString (head result))
            (results event)).

(** A command that hands nothing to the synthesizer and sets no timer. *)
Definition mute (c : Cmd) : Prop :=
  match c with
  | speechSynthesis_speak _ | setTimeout _ _ => False
  | _ => True
  end.

Definition is_play (e : Event) : bool :=
  match e with
  | click_play => true
  | _ => false
  end.

(** The time that goes by in a sequence of events. *)
Fixpoint elapsed (es : list Event) : N :=
  match es with
  | [] => 0
  | time_passes dt :: es' => dt + elapsed es'
  | _ :: es' => elapsed es'
  end.

(** A command that neither moves the index nor sets a timer. *)
Definition plain (c : Cmd) : Prop :=
  match c with
  | setCurrentIndex _ | setTimeout _ _ => False
  | _ => True
  end.

(** A command that does not move the index, and whose timer, if it sets
    one, runs plain commands only. *)
Definition tame (c : Cmd) : Prop :=
  match c with
  | setCurrentIndex _ => False
  | setTimeout callback _ => forall window, Forall plain (cmds (callback window))
  | _ => True
  end.

Definition timers_plain (w : World) : Prop :=
  Forall (fun timer : N * (Window -> Script Cmd unit) =>
            forall window, Forall plain (cmds (timer.2 window)))
         (timers w).

Definition reachable (props : Props) (window : Window) (w : World) : Prop :=
  exists es : list Event, w = steps props window es initialWorld.

(** *** What the component displays *)

Definition getInputLangLabel (st : State) : string :=
  if String.eqb (inputLang st) "zh-HK" then "粵語 (Cantonese)"
  else if String.eqb (inputLang st) "zh-CN" then "普通話 (Mandarin)"
  else if String.eqb (inputLang st) "en-US" then "英文 (English)"
  else inputLang st.

Definition next_label : string := "下一個 (Next)".

Definition finish_label : string := "完成 (Finish)".

(** The label of the button bound to [handleNext] in the [revealed]
    stage. *)
Definition nextButtonLabel (props : Props) (st : State) : string :=
  if (Z.of_nat (currentIndex st) <? Z.of_nat (length (items props)) - 1)%Z
  then next_label else finish_label.

(** *** [handleChatSubmit] with its awaits

    The whole of [handleChatSubmit] when no other event comes in between:
    the updates before the call, the call of [chatWithAssistant], the
    updates after it and the call of [generateSpeech].  The second
    component is the audio handed to the decoder, if any; what the decoder
    and the player do with it is caught and does not reach the state. *)
Definition submitChat
    (generateContent : GeminiService.GenerateContentParameters ->
                       completion GeminiService.GenerateContentResponse)
    (generateSpeechContent : GeminiService.SpeechParameters ->
                             completion GeminiService.SpeechResponse)
    (props : Props) (now now' : N) (w : World) : World * option string :=
  let script := handleChatSubmit props now (ui w) in
  let w1 := run (cmds script) w in
  match result script with
  | Normal (Some call) =>
      match GeminiService.chatWithAssistant generateContent
              (call_history call) (call_message call) (Some (call_context call)) with
      | Normal reply =>
          let w2 := run (handleChatSubmit_reply now' reply) w1 in
          match GeminiService.generateSpeech generateSpeechContent reply with
          | Normal audioBase64 => (w2, audioBase64)
          | Throw _ => (w2, None)
          end
      | Throw _ => (w1, None)
      end
  | _ => (w1, None)
  end.

(** *** Invariants of the session *)

(** A command of [speakText]: the emotion of the robot, the synthesizer, a
    notice. *)
Definition voice_only (c : Cmd) : Prop :=
  match c with
  | setRobotEmotion _ | speechSynthesis_cancel | speechSynthesis_speak _
  | alert _ => True
  | _ => False
  end.

(** What a command writes to. *)
Inductive Kind :=
| index_kind | stage_kind | emotion_kind | messages_kind | input_kind
| listening_kind | lang_kind | synthesizer_kind | notice_kind | timer_kind
| recognition_kind.

#[export] Instance Kind_eq_dec : EqDecision Kind.
Proof. solve_decision. Defined.

Definition kind (c : Cmd) : Kind :=
  match c with
  | setCurrentIndex _ => index_kind
  | setStage _ => stage_kind
  | setRobotEmotion _ => emotion_kind
  | setMessages _ => messages_kind
  | setChatInput _ => input_kind
  | setIsListening _ => listening_kind
  | setInputLang _ => lang_kind
  | speechSynthesis_cancel | speechSynthesis_speak _ => synthesizer_kind
  | alert _ => notice_kind
  | setTimeout _ _ => timer_kind
  | recognition_start _ | recognition_stop => recognition_kind
  end.

(** What the handler of an event may write to; for the passing of time,
    what the timers of the component may write to when they expire. *)
Definition writes (e : Event) : list Kind :=
  match e with
  | click_next _ => [index_kind; stage_kind; emotion_kind; messages_kind]
  | click_play => [emotion_kind; synthesizer_kind; notice_kind; timer_kind]
  | click_mascot => [emotion_kind]
  | click_mic => [listening_kind; notice_kind; recognition_kind]
  | click_lang => [lang_kind]
  | input_change _ => [input_kind]
  | chat_submit _ => [messages_kind; input_kind; emotion_kind]
  | chat_reply _ _ => [messages_kind; emotion_kind]
  | on_recognition_start => [listening_kind; synthesizer_kind]
  | on_recognition_result _ => [input_kind]
  | on_recognition_error | on_recognition_end => [listening_kind]
  | on_utterance_end | on_utterance_error => [emotion_kind]
  | time_passes _ => [emotion_kind; synthesizer_kind; notice_kind]
  end.

(** The commands that an event makes the component issue, timers aside. *)
Definition handler (props : Props) (window : Window) (e : Event) (w : World)
  : list Cmd :=
  match e with
  | click_next now => handleNext props now (ui w)
  | click_play => cmds (handlePlayAudio props window (ui w))
  | click_mascot => [setRobotEmotion happy]
  | click_mic => toggleListening window (ui w)
  | click_lang => cycleInputLang
  | input_change value => [setChatInput value]
  | chat_submit now => cmds (handleChatSubmit props now (ui w))
  | chat_reply now reply => handleChatSubmit_reply now reply
  | on_recognition_start => cmds (recognition_onstart window)
  | on_recognition_result event => cmds (recognition_onresult event)
  | on_recognition_error => recognition_onerror
  | on_recognition_end => recognition_onend
  | on_utterance_end => utterance_onend
  | on_utterance_error => utterance_onerror
  | time_passes _ => []
  end.

(** A command within what the event [e] may write, whose update of the
    message log, if it is one, adds a message at the end, and whose timer,
    if it sets one, speaks and does nothing else. *)
Definition fits (e : Event) (c : Cmd) : Prop :=
  kind c ∈ writes e /\
  match c with
  | setMessages f => exists m, forall prev, f prev = prev ++ [m]
  | setTimeout callback _ => forall window, Forall voice_only (cmds (callback window))
  | _ => True
  end.

Definition timers_voice_only (w : World) : Prop :=
  Forall (fun timer : N * (Window -> Script Cmd unit) =>
            forall window, Forall voice_only (cmds (timer.2 window)))
         (timers w).

(** Two states that differ in the emotion of the robot at most. *)
Definition same_but_emotion (st st' : State) : Prop :=
  currentIndex st' = currentIndex st /\ stage st' = stage st /\
  messages st' = messages st /\ chatInput st' = chatInput st /\
  isListening st' = isListening st /\ inputLang st' = inputLang st.

Definition known_inputLang (l : string) : Prop :=
  l = "zh-HK" \/ l = "zh-CN" \/ l = "en-US".

End Practice.

(** ** The [Worksheet] component *)
Module Worksheet.
Import JS Types.

Record State := { showAnswers : bool }.

(** [ToBoolean] of a value typed [string | undefined]. *)
Definition truthy (s : option string) : bool :=
  match s with
  | Some (String _ _) => true
  | _ => false
  end.

Definition blank_line : string := "__________________".

Definition idiom_placeholder : string := "請默寫...".

(** The text of a sentence in the paragraph block. *)
Definition paragraphText (s : State) (item : DictationItem) : string :=
  if showAnswers s then content item
  else string_or (clozeContent item) (content item).

(** The sentence line of a vocabulary entry. *)
Definition vocabLine (s : State) (item : DictationItem) : string :=
  if showAnswers s && truthy (example item)
  then template_hole (example item)
  else string_or (clozeContent item) (string_or (example item) blank_line).

(** The hint line of a vocabulary entry, when there is one. *)
Definition vocabHint (s : State) (item : DictationItem) : option string :=
  if showAnswers s then Some (default EmptyString (meaning item)) else None.

(** The meaning cell of an idiom. *)
Definition idiomMeaning (item : DictationItem) : string :=
  string_or (meaning item) idiom_placeholder.

(** The phonetic line under the meaning of an idiom, when there is one. *)
Definition idiomPinyin (s : State) (item : DictationItem) : option string :=
  if truthy (subContent item) && showAnswers s then subContent item else None.

(** The writing cell of an idiom: the idiom, or [None] for the empty line. *)
Definition idiomAnswer (s : State) (item : DictationItem) : option string :=
  if showAnswers s then Some (content item) else None.

End Worksheet.

(** ** Concrete sessions *)
Module Sessions.
Import JS Types.

(** A blank input: a space, a tab, an ideographic space and a line feed. *)
Definition blank : string := " " +:+ utf8 [9] +:+ utf8 [227; 128; 128] +:+ utf8 [10].

Definition blank_setup : Setup.World App.World :=
  {| Setup.state :=
       {| Setup.text := blank; Setup.mode := paragraph; Setup.language := cantonese;
          Setup.loading := false; Setup.files := [] |};
     Setup.parent := {| App.appState := App.initialState; App.alerts := [] |};
     Setup.extractionCalls := [] |}.

Definition lion : DictationItem :=
  {| item_id := "0"; content := "獅子"; subContent := None;
     meaning := Some "一種大型貓科動物"; example := None; clozeContent := None;
     isNewParagraph := None |}.

Definition tiger : DictationItem :=
  {| item_id := "1"; content := "老虎"; subContent := None;
     meaning := Some "身上有條紋的猛獸"; example := None; clozeContent := None;
     isNewParagraph := None |}.

(** An extraction that finds the two animals, whatever it is given. *)
Definition finds_animals (text : string) (files : list Setup.File)
    (mode : DictationMode) : completion (list DictationItem) :=
  Normal [lion; tiger].

Definition animals (mode : DictationMode) : Practice.Props :=
  {| Practice.items := [lion; tiger];
     Practice.mode := mode;
     Practice.audioLanguage := cantonese |}.

Definition hk_voice : Practice.SpeechSynthesisVoice :=
  {| Practice.voice_name := "Sin-ji"; Practice.lang := "zh-HK" |}.

Definition browser : Practice.Window :=
  {| Practice.speechSynthesis := Some [hk_voice];
     Practice.SpeechRecognition := true |}.

(** A browser without speech synthesis. *)
Definition mute_browser : Practice.Window :=
  {| Practice.speechSynthesis := None;
     Practice.SpeechRecognition := true |}.

(** The session on the last of the two animals, answer shown. *)
Definition at_last_item : Practice.State :=
  Practice.ui (Practice.steps (animals vocab) browser
                 [Practice.click_next 1000; Practice.click_next 2000;
                  Practice.click_next 3000]
                 Practice.initialWorld).

(** The session on the first animal, answer shown. *)
Definition answer_shown : Practice.World :=
  Practice.steps (animals vocab) browser [Practice.click_next 1000]
                 Practice.initialWorld.

Definition heard (s : string) : Practice.SpeechRecognitionEvent :=
  {| Practice.results := [[{| Practice.transcript := s |}]] |}.

(** The two utterances of the idiom session on its first item. *)
Definition says_lion : Practice.SpeechSynthesisUtterance :=
  {| Practice.utterance_text := "獅子";
     Practice.voice := Some hk_voice;
     Practice.utterance_lang := "zh-HK";
     Practice.rate := Practice.normal_rate |}.

Definition says_lion_meaning : Practice.SpeechSynthesisUtterance :=
  {| Practice.utterance_text := "意思是：一種大型貓科動物";
     Practice.voice := Some hk_voice;
     Practice.utterance_lang := "zh-HK";
     Practice.rate := Practice.normal_rate |}.

(** The session with a question typed into the chat, and with a blank
    input. *)
Definition question : string := "獅子是什麼？".

Definition asking : Practice.World :=
  Practice.steps (animals vocab) browser [Practice.input_change question]
                 Practice.initialWorld.

Definition typing_blank : Practice.World :=
  Practice.steps (animals vocab) browser [Practice.input_change blank]
                 Practice.initialWorld.

(** The application after a worksheet was asked for and left again. *)
Definition after_back : App.World :=
  foldl (fun w e => App.step e w)
        {| App.appState := App.initialState; App.alerts := [] |}
        [App.start [lion; tiger] vocab cantonese (Some App.toWorksheet); App.back].

(** The form with a sentence typed in. *)
Definition ready_setup : Setup.World App.World :=
  {| Setup.state :=
       {| Setup.text := Examples.sentence; Setup.mode := paragraph;
          Setup.language := cantonese; Setup.loading := false; Setup.files := [] |};
     Setup.parent := {| App.appState := App.initialState; App.alerts := [] |};
     Setup.extractionCalls := [] |}.

(** A picked file for which the browser knows no media type. *)
Definition untyped : Setup.PickedFile :=
  {| Setup.file_type := EmptyString; Setup.file_name := "list.scan" |}.

End Sessions.

(** * Properties of the extraction service *)
Section Extraction.
Import JS Types GeminiService.

Lemma bind_Normal {A B} (c : completion A) (k : A -> completion B) (b : B) :
  c ≫= k = Normal b -> exists a, c = Normal a /\ k a = Normal b.
Proof. destruct c as [a|e]; [eauto | discriminate]. Qed.

Lemma or_Normal (a b : value) :
  or (Normal a) (Normal b) = Normal (value_or a b).
Proof. unfold or, value_or. cbn. destruct (ToBoolean a); reflexivity. Qed.

(** A raw item that is [null] or [undefined] makes the callback throw. *)
Lemma toDictationItem_nullish (item : value) (index : nat) :
  nullish item = true -> toDictationItem item index = Throw TypeError.
Proof. intros H. unfold toDictationItem, Get. rewrite H. reflexivity. Qed.

(** Any other raw item is turned into an item, field by field. *)
Lemma toDictationItem_normal (item : value) (index : nat) :
  nullish item = false ->
  exists it, toDictationItem item index = Normal it /\
             id it = pretty index /\ normalized item it /\
             isNewParagraph it = value_or (property item "newParagraph") (VBool false).
Proof.
  intros H. unfold toDictationItem, Get. rewrite H. cbn [mbind completion_bind bind].
  rewrite !or_Normal. eexists. split; [reflexivity |]. cbn. unfold normalized. cbn. auto 10.
Qed.

Lemma toDictationItem_inv (item : value) (index : nat) (it : ReturnedItem) :
  toDictationItem item index = Normal it ->
  id it = pretty index /\ normalized item it.
Proof.
  intros H. destruct (nullish item) eqn:Hn.
  - rewrite toDictationItem_nullish in H by done. discriminate.
  - destruct (toDictationItem_normal item index Hn) as (it' & E & Hid & Hnorm & _).
    rewrite E in H. injection H as <-. done.
Qed.

Lemma map_from_lookup {A B} (f : A -> nat -> completion B) (l : list A) :
  forall (i : nat) (ys : list B),
    map_from f i l = Normal ys ->
    length ys = length l /\
    forall (j : nat) (x : A), l !! j = Some x ->
      exists y, ys !! j = Some y /\ f x (i + j) = Normal y.
Proof.
  induction l as [|a l IH]; intros i ys H; cbn in H.
  - injection H as <-. split; [done | intros j x Hj; discriminate].
  - destruct (f a i) as [y|e] eqn:Ha; [| discriminate]. cbn in H.
    destruct (map_from f (S i) l) as [ys'|e] eqn:Hl; [| discriminate].
    injection H as <-. destruct (IH _ _ Hl) as [Hlen Hget].
    split; [cbn; congruence |].
    intros [|j] x Hj; cbn in Hj.
    + injection Hj as <-. exists y. rewrite Nat.add_0_r. done.
    + destruct (Hget j x Hj) as (y' & Hy & Hf). exists y'.
      replace (i + S j) with (S i + j) by lia. done.
Qed.

Lemma map_from_nullish (l : list value) :
  forall i : nat,
    existsb nullish l = true -> map_from toDictationItem i l = Throw TypeError.
Proof.
  induction l as [|a l IH]; intros i H; cbn in H; [discriminate |].
  cbn. destruct (nullish a) eqn:Ha.
  - rewrite toDictationItem_nullish by done. reflexivity.
  - destruct (toDictationItem_normal a i Ha) as (it & -> & _).
    cbn. rewrite IH by done. reflexivity.
Qed.

Lemma map_from_no_nullish (l : list value) :
  forall i : nat,
    existsb nullish l = false -> exists items, map_from toDictationItem i l = Normal items.
Proof.
  induction l as [|a l IH]; intros i H; cbn in H; [by eexists |].
  apply orb_false_iff in H as [Ha Hl].
  destruct (toDictationItem_normal a i Ha) as (it & E & _).
  destruct (IH (S i) Hl) as [items E'].
  exists (it :: items). cbn. rewrite E. cbn. rewrite E'. reflexivity.
Qed.

Variable generateContent :
  GenerateContentParameters -> completion GenerateContentResponse.
Variable JSON_parse : string -> completion value.

(** The extraction call fails in one of the listed ways exactly when
    something throws inside the [try] block. *)
Lemma extraction_fails_iff_throw (text : string) (files : list File)
    (mode : DictationMode) :
  extraction_fails generateContent JSON_parse text files mode = true <->
  exists e, analyzeMaterial_try generateContent JSON_parse text files mode = Throw e.
Proof.
  unfold extraction_fails, analyzeMaterial_try.
  destruct (generateContent _) as [response|e]; cbn; [| split; eauto].
  destruct (JSON_parse _) as [rawItems|e]; cbn; [| split; eauto].
  destruct rawItems as [| | | | |l|]; cbn; try (split; [by eauto | done]).
  unfold Array_map. split.
  - intros H. rewrite map_from_nullish by done. eauto.
  - intros [e H]. destruct (existsb nullish l) eqn:Hn; [done |].
    destruct (map_from_no_nullish l 0 Hn) as [items E]. congruence.
Qed.

(** [analyzeMaterial] always resolves. *)
Lemma analyzeMaterial_total (text : string) (files : list File)
    (mode : DictationMode) :
  exists items, analyzeMaterial generateContent JSON_parse text files mode = Normal items.
Proof.
  unfold analyzeMaterial, try_catch. destruct (analyzeMaterial_try _ _ _ _ _); eauto.
Qed.

Lemma Forall_conforms_nil (schema : ItemSchema) (l : list value) :
  ~ Forall (conforms schema) l -> l <> [].
Proof. intros H ->. apply H. constructor. Qed.

(** C2.  [analyzeMaterial] never raises to the caller: it always resolves
    with a list.  It resolves with the empty list whenever the [try] block
    throws: the request is rejected, the response is not parseable, the
    payload is not an array, or one of its elements is [null] or
    [undefined].  Every other failure that the specification lists is a
    payload that is an array without such elements and with an element
    that is not an item of the schema; it is not treated as a failure: the
    result has one item for every element and is not empty. *)
Theorem analyzeMaterial_failure_is_empty (text : string) (files : list File)
    (mode : DictationMode) :
  (exists items,
     analyzeMaterial generateContent JSON_parse text files mode = Normal items) /\
  (extraction_fails generateContent JSON_parse text files mode = true ->
   failure_as_specified generateContent JSON_parse text files mode /\
   analyzeMaterial generateContent JSON_parse text files mode = Normal []) /\
  (failure_as_specified generateContent JSON_parse text files mode ->
   extraction_fails generateContent JSON_parse text files mode = false ->
   exists response l items,
     generateContent (analyzeMaterial_request text files mode) = Normal response /\
     JSON_parse (string_or (response_text response) "[]") = Normal (VArray l) /\
     existsb nullish l = false /\
     ~ Forall (conforms (itemSchema mode)) l /\
     analyzeMaterial generateContent JSON_parse text files mode = Normal items /\
     length items = length l /\
     items <> []).
Proof.
  split; [apply analyzeMaterial_total |]. split.
  - intros H. split.
    + unfold extraction_fails in H. unfold failure_as_specified.
      destruct (generateContent _) as [response|e] eqn:Hg; [| left; eauto].
      right.
      destruct (JSON_parse _) as [payload|e] eqn:Hp; [| left; eauto].
      right. exists response, payload. repeat (split; [done |]).
      intros (l & -> & Hall).
      apply existsb_exists in H as (raw & Hin & Hraw).
      apply list_elem_of_In in Hin. rewrite Forall_forall in Hall.
      destruct (Hall raw Hin) as [[m ->] _]. discriminate.
    + apply extraction_fails_iff_throw in H as [e H].
      unfold analyzeMaterial. rewrite H. reflexivity.
  - intros Hspec Hfails. unfold extraction_fails in Hfails.
    destruct (generateContent _) as [response|e] eqn:Hg; [| discriminate].
    destruct (JSON_parse _) as [payload|e] eqn:Hp; [| discriminate].
    destruct payload as [| | | | |l|]; try discriminate.
    assert (~ Forall (conforms (itemSchema mode)) l) as Hbad.
    { intros Hall.
      destruct Hspec as [[e He] | [(r & e & Hr & He) | (r & v & Hr & Hv & Hm)]].
      - congruence.
      - assert (r = response) as -> by congruence. congruence.
      - assert (r = response) as -> by congruence.
        assert (v = VArray l) as -> by congruence.
        apply Hm. eauto. }
    destruct (map_from_no_nullish l 0 Hfails) as [items E].
    destruct (map_from_lookup _ _ _ _ E) as [Hlen _].
    exists response, l, items. repeat (split; [done |]).
    split.
    { unfold analyzeMaterial, analyzeMaterial_try. rewrite Hg. cbn. rewrite Hp. cbn.
      unfold Array_map. rewrite E. reflexivity. }
    split; [done |].
    apply Forall_conforms_nil in Hbad.
    intros ->. by destruct l.
Qed.

(** When the call does not fail, the items are built from the elements of
    the payload, one for one. *)
Lemma analyzeMaterial_items (text : string) (files : list File) (mode : DictationMode)
    (response : GenerateContentResponse) (l : list value) (items : list ReturnedItem) :
  generateContent (analyzeMaterial_request text files mode) = Normal response ->
  JSON_parse (string_or (response_text response) "[]") = Normal (VArray l) ->
  analyzeMaterial generateContent JSON_parse text files mode = Normal items ->
  items = [] \/ map_from toDictationItem 0 l = Normal items.
Proof.
  intros Hg Hp. unfold analyzeMaterial, analyzeMaterial_try. rewrite Hg. cbn.
  rewrite Hp. cbn. unfold Array_map.
  destruct (map_from toDictationItem 0 l) as [ys|e]; cbn; intros [= <-]; auto.
Qed.

Lemma value_or_not_nullish (a : value) (s : string) :
  nullish (value_or a (VString s)) = false.
Proof. unfold value_or. destruct a, (ToBoolean _) eqn:E; done. Qed.

Lemma value_or_missing (a b : value) : a = VUndefined -> value_or a b = b.
Proof. intros ->. reflexivity. Qed.

Lemma value_or_nonempty_string (a b : value) :
  nonempty_string a -> value_or a b = a.
Proof.
  intros (s & -> & Hs). unfold value_or. cbn.
  destruct s; [done | reflexivity].
Qed.

(** C3, as the code has it.  For every returned item: [content] is the
    [content] of the payload, untouched (so a non-empty string when the
    payload holds one); [meaning], [subContent], [example] and
    [clozeContent] are never [undefined] or [null]: each is the value of the
    payload when that is truthy ([subContent] falling back on [pinyin]) and
    the empty string otherwise, in particular when the property is
    missing. *)
Theorem returned_items_normalized (text : string) (files : list File)
    (mode : DictationMode) (response : GenerateContentResponse)
    (l : list value) (items : list ReturnedItem) :
  generateContent (analyzeMaterial_request text files mode) = Normal response ->
  JSON_parse (string_or (response_text response) "[]") = Normal (VArray l) ->
  analyzeMaterial generateContent JSON_parse text files mode = Normal items ->
  forall (i : nat) (raw : value) (it : ReturnedItem),
    l !! i = Some raw -> items !! i = Some it ->
    normalized raw it /\
    (nonempty_string (property raw "content") -> nonempty_string (content it)) /\
    (nonempty_string (property raw "meaning") -> nonempty_string (meaning it)) /\
    (missing raw "meaning" -> meaning it = VString EmptyString) /\
    (missing raw "subContent" -> missing raw "pinyin" ->
     subContent it = VString EmptyString) /\
    (missing raw "example" -> example it = VString EmptyString) /\
    (missing raw "clozeContent" -> clozeContent it = VString EmptyString) /\
    nullish (meaning it) = false /\ nullish (subContent it) = false /\
    nullish (example it) = false /\ nullish (clozeContent it) = false.
Proof.
  intros Hg Hp Ha i raw it Hraw Hit.
  destruct (analyzeMaterial_items _ _ _ _ _ _ Hg Hp Ha) as [-> | Hmap];
    [discriminate |].
  destruct (map_from_lookup _ _ _ _ Hmap) as [_ Hget].
  destruct (Hget i raw Hraw) as (it' & Hit' & Hbuilt).
  assert (it' = it) as -> by congruence.
  apply toDictationItem_inv in Hbuilt as [_ Hnorm].
  split; [exact Hnorm |].
  destruct Hnorm as (Hc & Hm & Hs & He & Hz).
  rewrite Hc, Hm, Hs, He, Hz. unfold missing.
  repeat split; try apply value_or_not_nullish.
  - done.
  - intros H. by rewrite value_or_nonempty_string.
  - apply value_or_missing.
  - intros -> ->. reflexivity.
  - apply value_or_missing.
  - apply value_or_missing.
Qed.

Lemma property_supply_id (supplied : option value) (raw : value) (k : string) :
  k <> "id" -> property (supply_id supplied raw) k = property raw k.
Proof.
  intros Hk. destruct raw; try reflexivity. cbn.
  destruct supplied; [rewrite lookup_insert_ne | rewrite lookup_delete_ne]; done.
Qed.

Lemma toDictationItem_supply_id (supplied : option value) (raw : value) (index : nat) :
  toDictationItem (supply_id supplied raw) index = toDictationItem raw index.
Proof.
  unfold toDictationItem, Get.
  replace (nullish (supply_id supplied raw)) with (nullish raw)
    by (destruct raw; reflexivity).
  rewrite !property_supply_id by done. reflexivity.
Qed.

Lemma map_from_supply_ids (l : list value) :
  forall (supplied : nat -> option value) (i : nat),
    map_from toDictationItem i (imap (fun j raw => supply_id (supplied j) raw) l)
    = map_from toDictationItem i l.
Proof.
  induction l as [|raw l IH]; intros supplied i; [reflexivity |].
  cbn. rewrite toDictationItem_supply_id.
  destruct (toDictationItem raw i); [| reflexivity]. cbn.
  unfold compose. rewrite (IH (fun j => supplied (S j))). reflexivity.
Qed.

(** C9.  The identifier of every returned item is the decimal numeral of its
    position in the array, counted from zero, and the identifiers that the
    payload supplies play no part: replacing or removing them leaves the
    result of [analyzeMaterial] as it is. *)
Theorem ids_are_positions (text : string) (files : list File) (mode : DictationMode) :
  (forall (items : list ReturnedItem) (i : nat) (it : ReturnedItem),
     analyzeMaterial generateContent JSON_parse text files mode = Normal items ->
     items !! i = Some it -> id it = pretty i) /\
  (forall supplied : nat -> option value,
     analyzeMaterial generateContent (parse_with_ids JSON_parse supplied) text files mode
     = analyzeMaterial generateContent JSON_parse text files mode).
Proof.
  split.
  - intros items i it. unfold analyzeMaterial, analyzeMaterial_try.
    destruct (generateContent _) as [response|e]; cbn;
      [| intros [= <-]; discriminate].
    destruct (JSON_parse _) as [rawItems|e]; cbn; [| intros [= <-]; discriminate].
    destruct rawItems as [| | | | |l|]; cbn; try (intros [= <-]; discriminate).
    unfold Array_map. destruct (map_from toDictationItem 0 l) as [ys|e] eqn:Hmap;
      cbn; intros [= <-]; [| discriminate].
    intros Hit. destruct (map_from_lookup _ _ _ _ Hmap) as [Hlen Hget].
    assert (is_Some (l !! i)) as [raw Hraw].
    { apply lookup_lt_is_Some. rewrite <- Hlen. by apply lookup_lt_Some in Hit. }
    destruct (Hget i raw Hraw) as (it' & Hit' & Hbuilt).
    assert (it' = it) as -> by congruence.
    by apply toDictationItem_inv in Hbuilt as [? _].
  - intros supplied. unfold analyzeMaterial, analyzeMaterial_try, parse_with_ids.
    destruct (generateContent _) as [response|e]; cbn; [| reflexivity].
    destruct (JSON_parse _) as [rawItems|e]; cbn; [| reflexivity].
    destruct rawItems as [| | | | |l|]; cbn; try reflexivity.
    unfold Array_map. by rewrite map_from_supply_ids.
Qed.

(** C6.  [chatWithAssistant] always resolves, with a reply that is not
    empty; when the backend throws, the reply is the fixed fallback. *)
Theorem chatWithAssistant_reply (history : list ChatTurn) (currentMessage : string)
    (context : option string) :
  exists reply : string,
    chatWithAssistant generateContent history currentMessage context = Normal reply /\
    reply <> EmptyString /\
    ((exists e, generateContent
                  {| model_name := "gemini-2.5-flash";
                     contents := prompt (chat_prompt history currentMessage context);
                     config := None |} = Throw e) ->
     reply = chat_fallback).
Proof.
  unfold chatWithAssistant, chatWithAssistant_try.
  destruct (generateContent _) as [response|e]; cbn.
  - exists (string_or (response_text response) chat_default).
    split; [reflexivity |]. split; [| intros [e ?]; discriminate].
    destruct (response_text response) as [[|c s]|]; cbn; discriminate.
  - exists chat_fallback. split; [reflexivity |]. split; [| done].
    unfold chat_fallback. discriminate.
Qed.

End Extraction.

Section ExtractionExamples.
Import JS Types GeminiService Examples.

Lemma analyzeMaterial_paragraph :
  analyzeMaterial (responds paragraph_text) JSON_parse sentence [] paragraph
  = Normal [paragraph_item].
Proof. vm_compute. reflexivity. Qed.

Lemma analyzeMaterial_idiom :
  analyzeMaterial (responds idiom_text) JSON_parse EmptyString [] idiom
  = Normal idiom_items.
Proof. vm_compute. reflexivity. Qed.

(** The request is rejected: the result is the empty list. *)
Lemma analyzeMaterial_failure_is_empty_witness :
  analyzeMaterial offline JSON_parse sentence [] paragraph = Normal [].
Proof.
  destruct (analyzeMaterial_failure_is_empty offline JSON_parse sentence []
              paragraph)
    as (_ & Hfails & _).
  destruct (Hfails eq_refl) as [_ Hempty]. exact Hempty.
Defined.

Lemma mixed_payload_is_malformed (mode : DictationMode) :
  malformed mode (VArray mixed_payload).
Proof.
  intros (l & [= <-] & Hall).
  apply Forall_cons in Hall as [[[m Hm] _] _]. discriminate.
Qed.

Lemma analyzeMaterial_mixed :
  analyzeMaterial (responds mixed_text) JSON_parse_mixed EmptyString [] vocab
  = Normal [blank_item "0"; blank_item "1"; blank_item "2"].
Proof. vm_compute. reflexivity. Qed.

(** C2 fails as stated: a payload that parses and is malformed, with
    elements that are no items at all, is not answered with the empty list
    but with one item for each of its elements. *)
Lemma malformed_payload_gives_items :
  ~ failure_is_empty_as_specified (responds mixed_text) JSON_parse_mixed
      EmptyString [] vocab.
Proof.
  intros H.
  assert (failure_as_specified (responds mixed_text) JSON_parse_mixed
            EmptyString [] vocab) as Hfailure.
  { right. right.
    exists {| response_text := Some mixed_text |}, (VArray mixed_payload).
    split; [reflexivity |]. split; [reflexivity |].
    apply mixed_payload_is_malformed. }
  apply H in Hfailure. rewrite analyzeMaterial_mixed in Hfailure. discriminate.
Qed.

(** C3 fails as stated: a paragraph payload that holds every property its
    schema requires comes back with the empty string as [meaning]. *)
Lemma meaning_may_be_empty :
  ~ extraction_normalizes_as_specified
      (responds paragraph_text) JSON_parse sentence [] paragraph.
Proof.
  intros H.
  destruct (H {| response_text := Some paragraph_text |} [paragraph_raw]
              [paragraph_item] eq_refl eq_refl analyzeMaterial_paragraph
              0 paragraph_raw paragraph_item eq_refl eq_refl)
    as (_ & (s & Hs & Hne) & _).
  cbn in Hs. injection Hs as <-. by apply Hne.
Qed.

Lemma returned_items_normalized_witness :
  normalized paragraph_raw paragraph_item /\
  meaning paragraph_item = VString EmptyString /\
  nullish (subContent paragraph_item) = false.
Proof.
  destruct (returned_items_normalized (responds paragraph_text) JSON_parse
              sentence [] paragraph {| response_text := Some paragraph_text |}
              [paragraph_raw] [paragraph_item] eq_refl eq_refl
              analyzeMaterial_paragraph 0 paragraph_raw paragraph_item
              eq_refl eq_refl)
    as (Hn & _ & _ & Hm & _ & _ & _ & _ & Hs & _).
  split; [exact Hn |]. split; [apply Hm; reflexivity | exact Hs].
Defined.

Lemma ids_are_positions_witness :
  from_option id EmptyString (idiom_items !! 1) = pretty 1 /\
  analyzeMaterial (responds idiom_text)
    (parse_with_ids JSON_parse (fun _ => None)) EmptyString [] idiom
  = Normal idiom_items.
Proof.
  destruct (ids_are_positions (responds idiom_text) JSON_parse EmptyString [] idiom)
    as [Hid Hsame].
  split.
  - exact (Hid idiom_items 1 _ analyzeMaterial_idiom eq_refl).
  - rewrite Hsame. exact analyzeMaterial_idiom.
Defined.

Lemma chatWithAssistant_reply_witness :
  chatWithAssistant offline [] "獅子是什麼意思？" None = Normal chat_fallback.
Proof.
  destruct (chatWithAssistant_reply offline [] "獅子是什麼意思？" None)
    as (reply & E & _ & Hf).
  rewrite E. f_equal. apply Hf. eexists. reflexivity.
Defined.

End ExtractionExamples.

(** * Properties of the start-up guards *)
Section StartUp.
Import JS Types.

Lemma string_length_app (s1 s2 : string) :
  String.length (s1 +:+ s2) = String.length s1 + String.length s2.
Proof. induction s1 as [|c s1 IH]; [reflexivity | exact (f_equal S IH)]. Qed.

(** [strip_any] takes a leading white space off, and only that. *)
Lemma strip_any_whiteSpace (w s : string) :
  w ∈ whiteSpace ->
  strip_any whiteSpace (w +:+ s) = Some s /\
  String.length s < String.length (w +:+ s).
Proof.
  unfold whiteSpace. intros H. rewrite string_length_app.
  repeat (apply elem_of_cons in H as [-> | H];
          [split; [reflexivity | apply Nat.ltb_lt; cbn; apply Nat.leb_le; lia] |]).
  by apply elem_of_nil in H.
Qed.

Lemma strip_all_WhiteSpaceOnly (s : string) :
  WhiteSpaceOnly s ->
  forall fuel : nat, String.length s <= fuel -> strip_all whiteSpace fuel s = EmptyString.
Proof.
  induction 1 as [|w s Hw Hs IH]; intros fuel Hfuel.
  - destruct fuel; reflexivity.
  - destruct (strip_any_whiteSpace w s Hw) as [Hstrip Hlen].
    destruct fuel as [|fuel]; [lia |]. cbn [strip_all]. rewrite Hstrip.
    apply IH. lia.
Qed.

(** [trim] leaves nothing of a string of white space. *)
Lemma trim_WhiteSpaceOnly (s : string) : WhiteSpaceOnly s -> trim s = EmptyString.
Proof.
  intros H. unfold trim, trimStart. by rewrite strip_all_WhiteSpaceOnly.
Qed.

(** C8.  A start request with an empty item list shows the notice about the
    missing content and leaves the state of the application, its view and
    its item list with it, as it was: neither the practice view nor the
    worksheet view is entered. *)
Theorem handleStart_empty (mode : DictationMode) (language : AudioLanguage)
    (targetView : option App.TargetView) (w : App.World) :
  App.handleStart [] mode language targetView w
  = {| App.appState := App.appState w;
       App.alerts := App.alerts w ++ [App.content_missing_notice] |}.
Proof. reflexivity. Qed.

(** A non-empty list does enter the requested view. *)
Lemma handleStart_nonempty (item : DictationItem) (items : list DictationItem)
    (mode : DictationMode) (language : AudioLanguage)
    (targetView : App.TargetView) (w : App.World) :
  view (App.appState (App.handleStart (item :: items) mode language (Some targetView) w))
  = App.TargetView_view targetView.
Proof. reflexivity. Qed.

Variable analyzeMaterial :
  string -> list Setup.File -> DictationMode -> completion (list DictationItem).

(** C10.  With a text that is empty or white space only and no attachment,
    the process action does nothing: no extraction call is made and the
    loading flag, the files and the state of the application, its view
    included, stay as they were. *)
Theorem handleProcess_blank (targetView : App.TargetView) (w : Setup.World App.World) :
  WhiteSpaceOnly (Setup.text (Setup.state w)) ->
  Setup.files (Setup.state w) = [] ->
  Setup.handleProcess analyzeMaterial Setup_onStart targetView w = w.
Proof.
  intros Htext Hfiles. unfold Setup.handleProcess.
  rewrite trim_WhiteSpaceOnly by done. rewrite Hfiles. reflexivity.
Qed.

(** An extraction that resolves with the empty list ends in the notice, in
    the view the application was in. *)
Lemma handleProcess_nothing_extracted (targetView : App.TargetView)
    (w : Setup.World App.World) :
  trim (Setup.text (Setup.state w)) <> EmptyString ->
  analyzeMaterial (Setup.text (Setup.state w)) (Setup.files (Setup.state w))
                  (Setup.mode (Setup.state w)) = Normal [] ->
  let w' := Setup.handleProcess analyzeMaterial Setup_onStart targetView w in
  App.appState (Setup.parent w') = App.appState (Setup.parent w) /\
  App.alerts (Setup.parent w')
  = App.alerts (Setup.parent w) ++ [App.content_missing_notice] /\
  Setup.loading (Setup.state w') = false.
Proof.
  intros Htext Hnone. unfold Setup.handleProcess.
  apply String.eqb_neq in Htext. rewrite Htext, Hnone. cbn. done.
Qed.

End StartUp.

Section StartUpExamples.
Import JS Types Sessions.

Lemma blank_is_WhiteSpaceOnly : WhiteSpaceOnly blank.
Proof.
  unfold blank.
  apply (WhiteSpaceOnly_cons " "); [unfold whiteSpace; set_solver |].
  apply (WhiteSpaceOnly_cons (utf8 [9])); [unfold whiteSpace; set_solver |].
  apply (WhiteSpaceOnly_cons (utf8 [227; 128; 128])); [unfold whiteSpace; set_solver |].
  apply (WhiteSpaceOnly_cons (utf8 [10]) EmptyString);
    [unfold whiteSpace; set_solver | constructor].
Qed.

Lemma handleProcess_blank_witness :
  Setup.handleProcess finds_animals Setup_onStart App.toPractice blank_setup
  = blank_setup.
Proof.
  apply handleProcess_blank; [exact blank_is_WhiteSpaceOnly | reflexivity].
Defined.

End StartUpExamples.

(** * Properties of the practice session *)
Section Session.
Import JS Types Practice.

(** *** Commands that leave the index alone *)

Lemma plain_tame (c : Cmd) : plain c -> tame c.
Proof. destruct c; done. Qed.

Lemma apply_tame_index (c : Cmd) (st : State) :
  tame c -> currentIndex (apply c st) = currentIndex st.
Proof. destruct c; done. Qed.

Lemma commit_tame_index (cs : list Cmd) :
  forall st : State,
    Forall tame cs -> currentIndex (commit cs st) = currentIndex st.
Proof.
  induction cs as [|c cs IH]; intros st H; [reflexivity |].
  apply Forall_cons in H as [Hc Hcs]. cbn.
  change (currentIndex (commit cs (apply c st)) = currentIndex st).
  by rewrite IH, apply_tame_index.
Qed.

Lemma settle_tame (cs : list Cmd) (st : State) :
  Forall tame cs -> settle cs st = commit cs st.
Proof.
  intros H. unfold settle, renders. rewrite commit_tame_index by done.
  case_decide; [reflexivity | done].
Qed.

Lemma ui_run (cs : list Cmd) (w : World) : ui (run cs w) = settle cs (ui w).
Proof. reflexivity. Qed.

Variable props : Props.

Lemma advance_reading (now : N) (st : State) :
  stage st = reading -> advance props now st = apply (setStage revealed) st.
Proof.
  intros H. unfold advance, settle, renders, handleNext. rewrite H. cbn.
  case_decide; [reflexivity | done].
Qed.

Lemma advance_next (now : N) (st : State) :
  stage st = revealed -> has_next props st ->
  advance props now st
  = {| currentIndex := currentIndex st + 1; stage := reading; robotEmotion := idle;
       messages := messages st; chatInput := chatInput st;
       isListening := isListening st; inputLang := inputLang st |}.
Proof.
  intros H Hnext. unfold advance, settle, renders, handleNext. rewrite H.
  apply Z.ltb_lt in Hnext. rewrite Hnext. cbn.
  case_decide; [lia | reflexivity].
Qed.

Lemma advance_last (now : N) (st : State) :
  stage st = revealed -> ~ has_next props st ->
  advance props now st
  = {| currentIndex := currentIndex st; stage := revealed; robotEmotion := happy;
       messages := messages st ++ [finished_message now]; chatInput := chatInput st;
       isListening := isListening st; inputLang := inputLang st |}.
Proof.
  intros H Hlast. unfold advance, settle, renders, handleNext. rewrite H.
  apply Z.ltb_nlt in Hlast. rewrite Hlast. cbn.
  case_decide; [by rewrite <- H | done].
Qed.

Lemma advances_last (nows : list N) :
  forall st : State,
    stage st = revealed -> ~ has_next props st ->
    let st' := foldl (fun s now => advance props now s) st nows in
    currentIndex st' = currentIndex st /\ stage st' = revealed /\
    messages st' = messages st ++ map finished_message nows.
Proof.
  induction nows as [|now nows IH]; intros st H Hlast; cbn.
  - by rewrite app_nil_r.
  - destruct (IH (advance props now st)) as (Hi & Hs & Hm).
    + by rewrite advance_last.
    + unfold has_next. by rewrite advance_last.
    + rewrite Hi, Hs, Hm, advance_last by done. cbn.
      by rewrite <- app_assoc.
Qed.

(** C1, as the code has it.  [advance] never decreases the index.  When a
    next index exists, it adds exactly one to the index and the stage is
    [reading] again.  On the last item every call of [advance] leaves the
    index and the stage as they are and appends one congratulatory message:
    the calls after the first one append their message as well. *)
Theorem advance_index (now : N) (st : State) :
  currentIndex st <= currentIndex (advance props now st) /\
  (stage st = revealed -> has_next props st ->
   currentIndex (advance props now st) = S (currentIndex st) /\
   stage (advance props now st) = reading /\
   messages (advance props now st) = messages st) /\
  (stage st = revealed -> ~ has_next props st ->
   forall nows : list N,
     let st' := foldl (fun s now => advance props now s) st nows in
     currentIndex st' = currentIndex st /\ stage st' = revealed /\
     messages st' = messages st ++ map finished_message nows).
Proof.
  split; [| split].
  - destruct (stage st) eqn:H.
    + by rewrite advance_reading.
    + destruct (Z.lt_decidable (Z.of_nat (currentIndex st))
                  (Z.of_nat (length (items props)) - 1)).
      * rewrite advance_next by done. cbn. lia.
      * by rewrite advance_last.
  - intros H Hnext. rewrite advance_next by done. cbn. split; [lia | done].
  - intros H Hlast nows. by apply advances_last.
Qed.

(** *** Voice input *)

Lemma top_transcripts_map (l : list (list SpeechRecognitionAlternative)) :
  forall i : nat,
    Forall (fun result => result <> []) l ->
    map_from (fun result (_ : nat) => top_transcript result) i l
    = Normal (map (fun result => from_option transcript EmptyString (head result)) l).
Proof.
  induction l as [|result l IH]; intros i H; [reflexivity |].
  apply Forall_cons in H as [Hresult Hl]. cbn.
  destruct result as [|alternative result]; [done |]. cbn.
  by rewrite IH.
Qed.

Lemma recognition_onresult_well_formed (event : SpeechRecognitionEvent) :
  well_formed event ->
  cmds (recognition_onresult event) = [setChatInput (top_transcripts event)].
Proof.
  intros H. unfold recognition_onresult, Array_map.
  rewrite top_transcripts_map by exact H. reflexivity.
Qed.

Variable window : Window.

(** C7.  After any sequence of result events the transcript buffer holds
    the best transcripts of the last event, concatenated in the order of
    its results: each event replaces what the events before it had put
    there. *)
Theorem recognition_result_replaces (events : list SpeechRecognitionEvent) (w : World) :
  Forall well_formed events ->
  chatInput (ui (steps props window (map on_recognition_result events) w))
  = from_option top_transcripts (chatInput (ui w)) (last events).
Proof.
  induction events as [|event events IH] using rev_ind; intros H; [reflexivity |].
  apply Forall_app in H as [_ Hevent]. apply Forall_cons in Hevent as [Hevent _].
  rewrite last_snoc, map_app. unfold steps. rewrite foldl_app.
  cbn [foldl map step from_option].
  rewrite recognition_onresult_well_formed, ui_run by done.
  rewrite settle_tame by (by repeat constructor). reflexivity.
Qed.

(** *** Which handlers move the index *)

Lemma cmds_bind {A B} (P : Cmd -> Prop) (s : Script Cmd A) (k : A -> Script Cmd B) :
  Forall P (cmds s) -> (forall a, Forall P (cmds (k a))) -> Forall P (cmds (s ≫= k)).
Proof.
  intros Hs Hk. unfold mbind, Script_bind. destruct (result s); cbn; [| done].
  apply Forall_app. auto.
Qed.

Lemma field_cmds {A} (P : Cmd -> Prop) (o : option DictationItem) (f : DictationItem -> A) :
  Forall P (cmds (field (C := Cmd) o f)).
Proof. destruct o; constructor. Qed.

Lemma speakText_plain (win : Window) (text : string) (isSlow : bool) :
  Forall plain (cmds (speakText props win text isSlow)).
Proof.
  unfold speakText.
  destruct (is_cantonese (audioLanguage props)), (speechSynthesis win);
    cbn; by repeat constructor.
Qed.

Lemma speakMeaning_plain (st : State) (win : Window) :
  Forall plain (cmds (speakMeaning props st win)).
Proof.
  unfold speakMeaning. apply cmds_bind; [apply field_cmds |].
  intros meaning. apply speakText_plain.
Qed.

Lemma Forall_plain_tame (cs : list Cmd) : Forall plain cs -> Forall tame cs.
Proof. intros H. eapply Forall_impl; [exact H | apply plain_tame]. Qed.

Lemma handlePlayAudio_tame (win : Window) (st : State) :
  Forall tame (cmds (handlePlayAudio props win st)).
Proof.
  unfold handlePlayAudio.
  destruct (mode props);
    (apply cmds_bind; [apply field_cmds | intros text]);
    try (apply Forall_plain_tame, speakText_plain).
  apply cmds_bind; [apply Forall_plain_tame, speakText_plain | intros _].
  constructor; [| constructor]. intros win'. apply speakMeaning_plain.
Qed.

Lemma handleChatSubmit_tame (now : N) (st : State) :
  Forall tame (cmds (handleChatSubmit props now st)).
Proof.
  unfold handleChatSubmit. destruct (String.eqb _ _); [constructor |].
  apply cmds_bind; [by repeat constructor | intros _].
  apply cmds_bind; [apply field_cmds | intros current].
  apply cmds_bind; [apply field_cmds | intros meaning]. constructor.
Qed.

Lemma recognition_onresult_tame (event : SpeechRecognitionEvent) :
  Forall tame (cmds (recognition_onresult event)).
Proof.
  unfold recognition_onresult. destruct (Array_map _ _); by repeat constructor.
Qed.

Lemma recognition_onstart_tame (win : Window) :
  Forall tame (cmds (recognition_onstart win)).
Proof.
  unfold recognition_onstart. destruct (speechSynthesis win); by repeat constructor.
Qed.

Lemma toggleListening_tame (win : Window) (st : State) :
  Forall tame (toggleListening win st).
Proof.
  unfold toggleListening.
  destruct (isListening st), (SpeechRecognition win); by repeat constructor.
Qed.

(** *** Timers *)

Lemma exec_plain_timers (c : Cmd) (w : World) :
  plain c -> timers (exec c w) = timers w.
Proof. destruct c; done. Qed.

Lemma exec_tame_timers (c : Cmd) (w : World) :
  tame c -> timers_plain w -> timers_plain (exec c w).
Proof.
  destruct c; try done. intros Hc Hw. unfold timers_plain. cbn.
  apply Forall_app. split; [exact Hw |]. by constructor.
Qed.

Lemma foldl_exec_plain (cs : list Cmd) :
  forall w : World,
    Forall plain cs -> timers (foldl (fun w c => exec c w) w cs) = timers w.
Proof.
  induction cs as [|c cs IH]; intros w H; [reflexivity |].
  apply Forall_cons in H as [Hc Hcs]. cbn. by rewrite IH, exec_plain_timers.
Qed.

Lemma foldl_exec_tame (cs : list Cmd) :
  forall w : World,
    Forall tame cs -> timers_plain w ->
    timers_plain (foldl (fun w c => exec c w) w cs).
Proof.
  induction cs as [|c cs IH]; intros w H Hw; [exact Hw |].
  apply Forall_cons in H as [Hc Hcs]. cbn. by apply IH, exec_tame_timers.
Qed.

Lemma run_tame_timers (cs : list Cmd) (w : World) :
  Forall tame cs -> timers_plain w -> timers_plain (run cs w).
Proof. intros H Hw. by apply (foldl_exec_tame cs w). Qed.

Lemma run_tame_index (cs : list Cmd) (w : World) :
  Forall tame cs -> currentIndex (ui (run cs w)) = currentIndex (ui w).
Proof. intros H. by rewrite ui_run, settle_tame, commit_tame_index. Qed.

Lemma run_handleNext_timers (now : N) (w : World) :
  timers (run (handleNext props now (ui w)) w) = timers w.
Proof.
  unfold handleNext. destruct (stage (ui w)); [reflexivity |].
  destruct (_ <? _)%Z; reflexivity.
Qed.

Lemma fires_plain (due : list (N * (Window -> Script Cmd unit))) :
  forall w : World,
    Forall (fun timer => forall win, Forall plain (cmds (timer.2 win))) due ->
    timers (foldl (fire window) w due) = timers w /\
    currentIndex (ui (foldl (fire window) w due)) = currentIndex (ui w).
Proof.
  induction due as [|timer due IH]; intros w H; [done |].
  apply Forall_cons in H as [Htimer Hdue]. cbn.
  destruct (IH (fire window w timer) Hdue) as [-> ->]. unfold fire. split.
  - exact (foldl_exec_plain _ (with_clock timer.1 w) (Htimer window)).
  - rewrite ui_run, settle_tame, commit_tame_index;
      [reflexivity | by apply Forall_plain_tame ..].
Qed.

Lemma Forall_filter_keeps {A} (P Q : A -> Prop) `{!forall x, Decision (Q x)}
    (l : list A) :
  Forall P l -> Forall P (filter Q l).
Proof.
  rewrite !Forall_forall. intros HP x Hin.
  apply list_elem_of_filter in Hin as [_ Hin]. auto.
Qed.

Lemma elapse_plain (dt : N) (w : World) :
  timers_plain w ->
  timers_plain (elapse window dt w) /\
  currentIndex (ui (elapse window dt w)) = currentIndex (ui w).
Proof.
  intros Hw. unfold elapse.
  lazymatch goal with
  | |- context [foldl (fire window) ?w0 ?due] =>
      destruct (fires_plain due w0) as [Ht Hi]
  end.
  { by apply Forall_filter_keeps. }
  split; [| exact Hi].
  unfold timers_plain, with_clock. cbn [timers]. rewrite Ht.
  unfold with_timers. cbn [timers]. by apply Forall_filter_keeps.
Qed.

Lemma handler_tame (e : Event) (w : World) :
  match e with
  | click_next _ | time_passes _ => True
  | click_play => Forall tame (cmds (handlePlayAudio props window (ui w)))
  | click_mascot => Forall tame [setRobotEmotion happy]
  | click_mic => Forall tame (toggleListening window (ui w))
  | click_lang => Forall tame cycleInputLang
  | input_change value => Forall tame [setChatInput value]
  | chat_submit now => Forall tame (cmds (handleChatSubmit props now (ui w)))
  | chat_reply now reply => Forall tame (handleChatSubmit_reply now reply)
  | on_recognition_start => Forall tame (cmds (recognition_onstart window))
  | on_recognition_result event => Forall tame (cmds (recognition_onresult event))
  | on_recognition_error => Forall tame recognition_onerror
  | on_recognition_end => Forall tame recognition_onend
  | on_utterance_end => Forall tame utterance_onend
  | on_utterance_error => Forall tame utterance_onerror
  end.
Proof.
  destruct e; try done; try (by repeat constructor).
  - apply handlePlayAudio_tame.
  - apply toggleListening_tame.
  - apply handleChatSubmit_tame.
  - apply recognition_onstart_tame.
  - apply recognition_onresult_tame.
Qed.

(** Every event but the press on the button of [handleNext] leaves the
    index where it is. *)
Lemma step_index (e : Event) (w : World) :
  timers_plain w ->
  (forall now, e <> click_next now) ->
  currentIndex (ui (step props window e w)) = currentIndex (ui w).
Proof.
  intros Hw He. pose proof (handler_tame e w) as Htame.
  destruct e; cbn [step];
    try (by destruct (He now));
    try (by apply run_tame_index).
  - by rewrite run_tame_index.
  - by rewrite run_tame_index.
  - by apply elapse_plain.
Qed.

Lemma step_timers_plain (e : Event) (w : World) :
  timers_plain w -> timers_plain (step props window e w).
Proof.
  intros Hw. pose proof (handler_tame e w) as Htame.
  destruct e; cbn [step];
    try (by apply run_tame_timers).
  - unfold timers_plain. by rewrite run_handleNext_timers.
  - by apply elapse_plain.
Qed.

Lemma reachable_timers_plain (w : World) :
  reachable props window w -> timers_plain w.
Proof.
  intros [es ->]. induction es as [|e es IH] using rev_ind; [constructor |].
  unfold steps. rewrite foldl_app. cbn. by apply step_timers_plain.
Qed.

(** C4.  Whenever an event of the session changes the index, the event is
    a press on the button of [handleNext] with the answer shown, and the
    stage is [reading] in the very render that shows the new index: every
    render that follows has the new index and the stage [reading], and the
    stage has turned into [reading] once. *)
Theorem index_change_resets_stage (e : Event) (w : World) :
  reachable props window w ->
  currentIndex (ui (step props window e w)) <> currentIndex (ui w) ->
  exists now : N,
    e = click_next now /\
    stage (ui w) = revealed /\
    ui (step props window e w)
    = List.last (renders (handleNext props now (ui w)) (ui w)) (ui w) /\
    Forall (fun r => currentIndex r = S (currentIndex (ui w)) /\ stage r = reading)
           (renders (handleNext props now (ui w)) (ui w)) /\
    becomes_reading (stage (ui w)) (renders (handleNext props now (ui w)) (ui w)) = 1.
Proof.
  intros Hw Hchange. apply reachable_timers_plain in Hw.
  destruct e as [now| | | | | | | | | | | | | |];
    try (by rewrite step_index in Hchange).
  exists now. split; [reflexivity |]. cbn [step] in *. rewrite ui_run in Hchange.
  change (currentIndex (advance props now (ui w)) <> currentIndex (ui w)) in Hchange.
  destruct (stage (ui w)) eqn:Hstage.
  { by rewrite advance_reading in Hchange. }
  destruct (Z.lt_decidable (Z.of_nat (currentIndex (ui w)))
              (Z.of_nat (length (items props)) - 1)) as [Hnext | Hlast];
    [| by rewrite advance_last in Hchange].
  split; [reflexivity |]. split; [reflexivity |].
  unfold renders, handleNext. rewrite Hstage.
  apply Z.ltb_lt in Hnext. rewrite Hnext. cbn.
  case_decide; [lia |]. cbn.
  split; [| reflexivity]. repeat constructor; cbn; lia.
Qed.

(** *** Playing an idiom *)

Lemma makeUtterance_text_rate (voices : list SpeechSynthesisVoice) (text : string)
    (isSlow : bool) :
  utterance_text (makeUtterance props voices text isSlow) = text /\
  rate (makeUtterance props voices text isSlow)
  = if isSlow then slow_rate else normal_rate.
Proof.
  unfold makeUtterance. destruct (audioLanguage props), (find _ voices); done.
Qed.

Lemma speakText_cmds (voices : list SpeechSynthesisVoice) (text : string)
    (isSlow : bool) :
  speechSynthesis window = Some voices ->
  speakText props window text isSlow
  = {| cmds := [setRobotEmotion speaking; speechSynthesis_cancel;
                speechSynthesis_speak (makeUtterance props voices text isSlow)];
       result := Normal tt |}.
Proof.
  intros H. unfold speakText. rewrite H.
  destruct (is_cantonese (audioLanguage props)); reflexivity.
Qed.

Lemma handlePlayAudio_idiom (voices : list SpeechSynthesisVoice) (item : DictationItem)
    (st : State) :
  mode props = idiom ->
  speechSynthesis window = Some voices ->
  currentItem props st = Some item ->
  cmds (handlePlayAudio props window st)
  = [setRobotEmotion speaking; speechSynthesis_cancel;
     speechSynthesis_speak (makeUtterance props voices (content item) false);
     setTimeout (speakMeaning props st) play_delay].
Proof.
  intros Hmode Hsynth Hitem. unfold handlePlayAudio. rewrite Hmode, Hitem.
  cbn -[speakText]. by rewrite (speakText_cmds voices).
Qed.

Lemma speakMeaning_cmds (voices : list SpeechSynthesisVoice) (item : DictationItem)
    (st : State) :
  speechSynthesis window = Some voices ->
  currentItem props st = Some item ->
  cmds (speakMeaning props st window)
  = [setRobotEmotion speaking; speechSynthesis_cancel;
     speechSynthesis_speak
       (makeUtterance props voices
          (meaning_prefix +:+ template_hole (meaning item)) false)].
Proof.
  intros Hsynth Hitem. unfold speakMeaning. rewrite Hitem.
  cbn -[speakText]. by rewrite (speakText_cmds voices).
Qed.

Lemma exec_mute (c : Cmd) (w : World) :
  mute c ->
  spoken (exec c w) = spoken w /\ timers (exec c w) = timers w /\
  clock (exec c w) = clock w.
Proof. destruct c; done. Qed.

Lemma run_mute (cs : list Cmd) :
  forall w : World,
    Forall mute cs ->
    spoken (run cs w) = spoken w /\ timers (run cs w) = timers w /\
    clock (run cs w) = clock w.
Proof.
  unfold run. cbn [spoken timers clock with_ui].
  induction cs as [|c cs IH]; intros w H; [done |].
  apply Forall_cons in H as [Hc Hcs]. cbn [foldl].
  destruct (exec_mute c w Hc) as (Hs & Ht & Hk).
  destruct (IH (exec c w) Hcs) as (-> & -> & ->). done.
Qed.

Lemma handler_mute (e : Event) (w : World) :
  match e with
  | click_play | time_passes _ => True
  | click_next now => Forall mute (handleNext props now (ui w))
  | click_mascot => Forall mute [setRobotEmotion happy]
  | click_mic => Forall mute (toggleListening window (ui w))
  | click_lang => Forall mute cycleInputLang
  | input_change value => Forall mute [setChatInput value]
  | chat_submit now => Forall mute (cmds (handleChatSubmit props now (ui w)))
  | chat_reply now reply => Forall mute (handleChatSubmit_reply now reply)
  | on_recognition_start => Forall mute (cmds (recognition_onstart window))
  | on_recognition_result event => Forall mute (cmds (recognition_onresult event))
  | on_recognition_error => Forall mute recognition_onerror
  | on_recognition_end => Forall mute recognition_onend
  | on_utterance_end => Forall mute utterance_onend
  | on_utterance_error => Forall mute utterance_onerror
  end.
Proof.
  destruct e; try done; try (by repeat constructor).
  - unfold handleNext. destruct (stage (ui w)); [by repeat constructor |].
    destruct (_ <? _)%Z; by repeat constructor.
  - unfold toggleListening.
    destruct (isListening (ui w)), (SpeechRecognition window); by repeat constructor.
  - unfold handleChatSubmit. destruct (String.eqb _ _); [constructor |].
    apply cmds_bind; [by repeat constructor | intros _].
    apply cmds_bind; [apply field_cmds | intros current].
    apply cmds_bind; [apply field_cmds | intros meaning]. constructor.
  - unfold recognition_onstart. destruct (speechSynthesis window); by repeat constructor.
  - unfold recognition_onresult. destruct (Array_map _ _); by repeat constructor.
Qed.

(** No event but a press on the play button and the passing of time
    reaches the synthesizer or the timers. *)
Lemma step_mute (e : Event) (w : World) :
  is_play e = false ->
  match e with
  | time_passes _ => True
  | _ => spoken (step props window e w) = spoken w /\
         timers (step props window e w) = timers w /\
         clock (step props window e w) = clock w
  end.
Proof.
  intros He. pose proof (handler_mute e w) as Hmute.
  destruct e; try discriminate; try done; cbn [step];
    by apply run_mute.
Qed.

(** With no timer pending, nothing is said as long as the play button is
    left alone. *)
Lemma idle_says_nothing (es : list Event) :
  forall w : World,
    existsb is_play es = false -> timers w = [] ->
    spoken (steps props window es w) = spoken w.
Proof.
  induction es as [|e es IH]; intros w Hes Hw; [reflexivity |].
  cbn in Hes. apply orb_false_iff in Hes as [He Hes].
  change (spoken (steps props window es (step props window e w)) = spoken w).
  pose proof (step_mute e w He) as Hstep.
  destruct e; try discriminate;
    try (destruct Hstep as (Hs & Ht & Hk); rewrite IH by (done || congruence);
         exact Hs).
  rewrite IH by (done || (cbn; by rewrite Hw)). cbn. by rewrite Hw.
Qed.

(** With the timer of an idiom pending and the play button left alone, the
    meaning is said when the timer expires, and nothing else is said. *)
Lemma pending_says_meaning (voices : list SpeechSynthesisVoice) (item : DictationItem)
    (st : State) (T : N) (es : list Event) :
  speechSynthesis window = Some voices ->
  currentItem props st = Some item ->
  forall w : World,
    existsb is_play es = false ->
    timers w = [(T, speakMeaning props st)] ->
    (clock w < T)%N ->
    spoken (steps props window es w)
    = spoken w ++
      (if decide (T <= clock w + elapsed es)%N
       then [(T, makeUtterance props voices
                   (meaning_prefix +:+ template_hole (meaning item)) false)]
       else []).
Proof.
  intros Hsynth Hitem. induction es as [|e es IH]; intros w Hes Hw Hclock.
  - cbn. rewrite N.add_0_r. case_decide; [lia | by rewrite app_nil_r].
  - cbn in Hes. apply orb_false_iff in Hes as [He Hes].
    change (steps props window (e :: es) w)
      with (steps props window es (step props window e w)).
    pose proof (step_mute e w He) as Hstep.
    destruct e; try discriminate;
      try (destruct Hstep as (Hs & Ht & Hk);
           rewrite IH by (done || congruence); by rewrite Hs, Hk).
    cbn [step elapsed]. unfold elapse. rewrite Hw.
    rewrite !filter_cons, !filter_nil. cbn [fst].
    destruct (decide (T <= clock w + dt)%N) as [Hdue | Hwait].
    + rewrite decide_False by tauto. cbn [foldl].
      unfold fire. cbn [fst snd]. rewrite (speakMeaning_cmds voices item) by done.
      rewrite idle_says_nothing by done. rewrite decide_True by lia. reflexivity.
    + rewrite decide_True by done. cbn [foldl].
      rewrite IH by (done || (cbn; lia)). cbn [clock with_clock].
      rewrite N.add_assoc. reflexivity.
Qed.

(** What is handed to the synthesizer stays in the log, and timers are
    only ever added by a handler. *)
Lemma exec_grows (c : Cmd) (w : World) :
  (exists l, spoken (exec c w) = spoken w ++ l) /\
  (exists l, timers (exec c w) = timers w ++ l) /\
  clock (exec c w) = clock w.
Proof.
  destruct c; cbn; repeat split; eauto; exists []; by rewrite app_nil_r.
Qed.

Lemma run_grows (cs : list Cmd) :
  forall w : World,
    (exists l, spoken (run cs w) = spoken w ++ l) /\
    (exists l, timers (run cs w) = timers w ++ l) /\
    clock (run cs w) = clock w.
Proof.
  unfold run. cbn [spoken timers clock with_ui].
  induction cs as [|c cs IH]; intros w; cbn [foldl].
  - repeat split; exists []; by rewrite app_nil_r.
  - destruct (exec_grows c w) as ([l1 Hs1] & [l1' Ht1] & Hk1).
    destruct (IH (exec c w)) as ([l2 Hs2] & [l2' Ht2] & Hk2).
    rewrite Hs2, Ht2, Hk2, Hs1, Ht1, Hk1, <- !app_assoc. eauto.
Qed.

Lemma fires_grow (due : list (N * (Window -> Script Cmd unit))) :
  forall w : World,
    (exists l, spoken (foldl (fire window) w due) = spoken w ++ l) /\
    (exists l, timers (foldl (fire window) w due) = timers w ++ l).
Proof.
  induction due as [|timer due IH]; intros w; cbn [foldl].
  - split; exists []; by rewrite app_nil_r.
  - destruct (IH (fire window w timer)) as ([l2 Hs2] & [l2' Ht2]).
    destruct (run_grows (cmds (timer.2 window)) (with_clock timer.1 w))
      as ([l1 Hs1] & [l1' Ht1] & _).
    unfold fire in *. rewrite Hs2, Ht2, Hs1, Ht1, <- !app_assoc. cbn. eauto.
Qed.

Lemma step_grows (e : Event) (w : World) :
  exists l, spoken (step props window e w) = spoken w ++ l.
Proof.
  destruct e; cbn [step]; try apply run_grows.
  - apply (run_grows _ (silence w)).
  - apply (run_grows _ (silence w)).
  - unfold elapse. cbn [spoken with_clock].
    lazymatch goal with
    | |- context [foldl (fire window) ?w0 ?due] =>
        destruct (fires_grow due w0) as [Hs _]
    end.
    exact Hs.
Qed.

Lemma steps_grow (es : list Event) :
  forall w : World, exists l, spoken (steps props window es w) = spoken w ++ l.
Proof.
  induction es as [|e es IH]; intros w.
  - exists []. by rewrite app_nil_r.
  - change (steps props window (e :: es) w)
      with (steps props window es (step props window e w)).
    destruct (IH (step props window e w)) as [l2 ->].
    destruct (step_grows e w) as [l1 ->]. rewrite <- app_assoc. eauto.
Qed.

(** A pending timer stays pending, and the clock stays behind it, until
    the time it is due has come. *)
Lemma step_keeps_timer (e : Event) (w : World)
    (timer : N * (Window -> Script Cmd unit)) :
  timer ∈ timers w ->
  (clock w < timer.1)%N ->
  match e with
  | time_passes dt => (clock w + dt < timer.1)%N
  | _ => True
  end ->
  timer ∈ timers (step props window e w) /\
  (clock (step props window e w) < timer.1)%N /\
  clock (step props window e w) = (clock w + elapsed [e])%N.
Proof.
  intros Hin Hclock He.
  assert (forall cs w', timers w' = timers w -> clock w' = clock w ->
            timer ∈ timers (run cs w') /\ (clock (run cs w') < timer.1)%N /\
            clock (run cs w') = (clock w + 0)%N) as Hrun.
  { intros cs w' Ht Hk. destruct (run_grows cs w') as (_ & [l Hl] & Hk').
    rewrite Hl, Hk', Ht, Hk. split; [set_solver | lia]. }
  destruct e; cbn [step elapsed]; try (by apply Hrun).
  unfold elapse. cbn [timers clock with_clock].
  lazymatch goal with
  | |- context [foldl (fire window) ?w0 ?due] =>
      destruct (fires_grow due w0) as (_ & [l Hl])
  end.
  rewrite Hl. cbn [timers with_timers]. split; [| lia].
  apply elem_of_app. left. apply list_elem_of_filter. split; [lia | done].
Qed.

Lemma fires_say_meaning (voices : list SpeechSynthesisVoice) (item : DictationItem)
    (st : State) (T : N) (due : list (N * (Window -> Script Cmd unit))) (w : World) :
  speechSynthesis window = Some voices ->
  currentItem props st = Some item ->
  (T, speakMeaning props st) ∈ due ->
  exists l1 l2,
    spoken (foldl (fire window) w due)
    = spoken w ++ l1 ++
      (T, makeUtterance props voices
            (meaning_prefix +:+ template_hole (meaning item)) false) :: l2.
Proof.
  intros Hsynth Hitem Hin.
  apply list_elem_of_split in Hin as (d1 & d2 & ->).
  rewrite foldl_app. cbn [foldl].
  destruct (fires_grow d1 w) as ([l1 Hs1] & _).
  lazymatch goal with
  | |- context [foldl (fire window) (fire window ?w1 ?timer) d2] =>
      destruct (fires_grow d2 (fire window w1 timer)) as ([l2 Hs2] & _)
  end.
  rewrite Hs2. unfold fire at 1. cbn [fst snd].
  rewrite (speakMeaning_cmds voices item) by done.
  cbn [run spoken with_ui foldl exec clock with_clock]. rewrite Hs1.
  exists l1, l2. by rewrite <- !app_assoc.
Qed.

(** Once its time has come, the meaning of a pending idiom has been said,
    whatever else has happened. *)
Lemma pending_meaning_is_said (voices : list SpeechSynthesisVoice)
    (item : DictationItem) (st : State) (T : N) (es : list Event) :
  speechSynthesis window = Some voices ->
  currentItem props st = Some item ->
  forall w : World,
    (T, speakMeaning props st) ∈ timers w ->
    (clock w < T)%N ->
    (T <= clock w + elapsed es)%N ->
    exists l1 l2,
      spoken (steps props window es w)
      = spoken w ++ l1 ++
        (T, makeUtterance props voices
              (meaning_prefix +:+ template_hole (meaning item)) false) :: l2.
Proof.
  intros Hsynth Hitem. induction es as [|e es IH]; intros w Hin Hclock Hdue.
  - cbn in Hdue. lia.
  - change (steps props window (e :: es) w)
      with (steps props window es (step props window e w)).
    assert (elapsed (e :: es) = elapsed [e] + elapsed es)%N as Hsplit.
    { destruct e; cbn; lia. }
    assert (match e with
            | time_passes dt => (clock w + dt < T)%N
            | _ => True
            end \/
            exists dt, e = time_passes dt /\ (T <= clock w + dt)%N)
      as [Hwait | (dt & -> & Hfire)].
    { destruct e; auto. destruct (decide (clock w + dt < T)%N); [auto |].
      right. exists dt. split; [reflexivity | lia]. }
    + destruct (step_keeps_timer e w _ Hin Hclock Hwait) as (Hin' & Hclock' & Hk).
      destruct (IH (step props window e w) Hin' Hclock') as (l1 & l2 & ->);
        [cbn [fst] in *; lia |].
      destruct (step_grows e w) as [l0 ->].
      exists (l0 ++ l1), l2. by rewrite <- !app_assoc.
    + destruct (steps_grow es (step props window (time_passes dt) w)) as [l3 ->].
      cbn [step]. unfold elapse. cbn [spoken with_clock].
      lazymatch goal with
      | |- context [foldl (fire window) ?w0 ?due] =>
          destruct (fires_say_meaning voices item st T due w0 Hsynth Hitem)
            as (l1 & l2 & ->)
      end.
      { apply list_elem_of_filter. split; [cbn [fst]; lia | done]. }
      exists l1, (l2 ++ l3). cbn [spoken with_timers].
      by rewrite <- !app_assoc.
Qed.

(** C5.  In idiom mode, with speech synthesis at hand, a press on the play
    button hands the idiom to the synthesizer at once, at the normal rate,
    and, [play_delay] milliseconds later, the meaning behind its fixed
    prefix, at the normal rate: once that time has gone by the second
    utterance is in the log after the first one, stamped with the time of
    the press plus the delay, whatever has happened meanwhile, the end of
    the first utterance or anything else.  With no other timer pending and
    no other press on the play button, nothing else is said, and the
    meaning is not said before the delay has gone by. *)
Theorem idiom_play_order (voices : list SpeechSynthesisVoice) (item : DictationItem)
    (w : World) (es : list Event) :
  mode props = idiom ->
  speechSynthesis window = Some voices ->
  currentItem props (ui w) = Some item ->
  let A := makeUtterance props voices (content item) false in
  let B := makeUtterance props voices
             (meaning_prefix +:+ template_hole (meaning item)) false in
  utterance_text A = content item /\ rate A = normal_rate /\
  utterance_text B = meaning_prefix +:+ template_hole (meaning item) /\
  rate B = normal_rate /\
  (exists l, spoken (steps props window (click_play :: es) w)
             = spoken w ++ (clock w, A) :: l) /\
  ((play_delay <= elapsed es)%N ->
   exists l1 l2,
     spoken (steps props window (click_play :: es) w)
     = spoken w ++ (clock w, A) :: l1 ++ ((clock w + play_delay)%N, B) :: l2) /\
  (timers w = [] -> existsb is_play es = false ->
   spoken (steps props window (click_play :: es) w)
   = spoken w ++ (clock w, A) ::
     (if decide (play_delay <= elapsed es)%N
      then [((clock w + play_delay)%N, B)] else [])).
Proof.
  intros Hmode Hsynth Hitem A B. subst A B.
  repeat (split; [apply makeUtterance_text_rate |]).
  change (steps props window (click_play :: es) w)
    with (steps props window es (step props window click_play w)).
  cbn [step]. rewrite (handlePlayAudio_idiom voices item) by done.
  split; [| split].
  - lazymatch goal with
    | |- context [steps props window es ?w1] =>
        destruct (steps_grow es w1) as [l ->]
    end.
    cbn [spoken clock run with_ui foldl exec]. rewrite <- app_assoc. eauto.
  - intros Hdue.
    lazymatch goal with
    | |- context [steps props window es ?w1] =>
        destruct (pending_meaning_is_said voices item (ui w)
                    (clock w + play_delay) es Hsynth Hitem w1)
          as (l1 & l2 & ->)
    end.
    + cbn. set_solver.
    + cbn. unfold play_delay. lia.
    + cbn. lia.
    + cbn [spoken clock run with_ui foldl exec]. rewrite <- !app_assoc. eauto.
  - intros Hw Hes.
    rewrite (pending_says_meaning voices item (ui w) (clock w + play_delay)) by
      (done || (cbn; rewrite ?Hw; unfold play_delay; (reflexivity || lia))).
    cbn [spoken clock run with_ui foldl exec]. rewrite <- app_assoc. cbn [app].
    do 2 f_equal.
    destruct (decide (play_delay <= elapsed es)%N);
      [rewrite decide_True by lia | rewrite decide_False by lia]; reflexivity.
Qed.

End Session.

Section SessionExamples.
Import JS Types Practice Sessions.

Lemma at_last_item_is_last :
  stage at_last_item = revealed /\ ~ has_next (animals vocab) at_last_item.
Proof. split; [reflexivity |]. unfold has_next. vm_compute. discriminate. Qed.

(** Scenario 1 of the specification: two items, the answer shown and the
    button pressed on each; the index stays on the second item and one
    message has been added. *)
Lemma two_items_session :
  let st := advance (animals vocab) 4000 at_last_item in
  currentIndex st = 1 /\ stage st = revealed /\
  messages st = messages initialState ++ [finished_message 4000].
Proof. vm_compute. done. Qed.

(** C1 fails as stated: on the last item, a call of [advance] that follows
    the terminal signal is not a no-op, it appends a second congratulatory
    message. *)
Lemma advance_after_finish_appends :
  ~ advance_as_specified (animals vocab) at_last_item.
Proof.
  intros H. destruct at_last_item_is_last as [Hstage Hlast].
  destruct (H Hstage 4000%N) as (_ & _ & Hend).
  destruct (Hend Hlast) as (_ & _ & Hnoop).
  specialize (Hnoop 5000%N).
  apply (f_equal (fun st => length (messages st))) in Hnoop.
  vm_compute in Hnoop. discriminate.
Qed.

Lemma advance_index_witness :
  messages (foldl (fun s now => advance (animals vocab) now s) at_last_item
                  [4000%N; 5000%N])
  = messages at_last_item ++ [finished_message 4000; finished_message 5000].
Proof.
  destruct at_last_item_is_last as [Hstage Hlast].
  destruct (advance_index (animals vocab) 4000 at_last_item) as (_ & _ & Hend).
  destruct (Hend Hstage Hlast [4000%N; 5000%N]) as (_ & _ & Hmessages).
  exact Hmessages.
Defined.

Lemma index_change_resets_stage_witness :
  exists now : N,
    click_next 2000 = click_next now /\
    stage (ui answer_shown) = revealed /\
    ui (step (animals vocab) browser (click_next 2000) answer_shown)
    = List.last (renders (handleNext (animals vocab) now (ui answer_shown))
                         (ui answer_shown))
                (ui answer_shown) /\
    Forall (fun r => currentIndex r = S (currentIndex (ui answer_shown)) /\
                     stage r = reading)
           (renders (handleNext (animals vocab) now (ui answer_shown))
                    (ui answer_shown)) /\
    becomes_reading (stage (ui answer_shown))
      (renders (handleNext (animals vocab) now (ui answer_shown))
               (ui answer_shown)) = 1.
Proof.
  apply index_change_resets_stage.
  - exists [click_next 1000%N]. reflexivity.
  - vm_compute. discriminate.
Defined.

(** The idiom ends before its meaning is due. *)
Lemma idiom_play_order_witness :
  spoken (steps (animals idiom) browser
            [click_play; time_passes 1500; on_utterance_end; time_passes 500]
            initialWorld)
  = [(0%N, says_lion); (2000%N, says_lion_meaning)].
Proof.
  destruct (idiom_play_order (animals idiom) browser [hk_voice] lion initialWorld
              [time_passes 1500; on_utterance_end; time_passes 500]
              eq_refl eq_refl eq_refl)
    as (_ & _ & _ & _ & _ & _ & Hspoken).
  rewrite Hspoken by reflexivity. reflexivity.
Defined.

(** The idiom has not ended when its meaning is due: the meaning is handed
    over all the same, at the same time. *)
Lemma idiom_meaning_does_not_wait :
  spoken (steps (animals idiom) browser [click_play; time_passes 2000] initialWorld)
  = [(0%N, says_lion); (2000%N, says_lion_meaning)] /\
  spoken (steps (animals idiom) browser [click_play; time_passes 1999] initialWorld)
  = [(0%N, says_lion)].
Proof. split; reflexivity. Qed.

(** The answer is shown and the next item reached before the meaning is
    due: the meaning of the item that was played is said all the same. *)
Lemma idiom_meaning_survives_advance :
  spoken (steps (animals idiom) browser
            [click_play; time_passes 1000; click_next 1000; click_next 1500;
             time_passes 1000]
            initialWorld)
  = [(0%N, says_lion); (2000%N, says_lion_meaning)].
Proof. reflexivity. Qed.

(** Scenario 3 of the specification. *)
Lemma recognition_result_replaces_witness :
  chatInput (ui (steps (animals vocab) browser
                   (map on_recognition_result [heard "你好"; heard "你好嗎"])
                   initialWorld))
  = "你好嗎".
Proof.
  rewrite recognition_result_replaces; [reflexivity |].
  repeat constructor; discriminate.
Defined.

End SessionExamples.

(** * More on the services *)
Section Services.
Import JS Types GeminiService.

Variable generateContent :
  GenerateContentParameters -> completion GenerateContentResponse.
Variable JSON_parse : string -> completion value.

Lemma map_from_built (l : list value) :
  forall i : nat,
    existsb nullish l = false ->
    exists items,
      map_from toDictationItem i l = Normal items /\
      length items = length l /\
      forall (j : nat) (raw : value),
        l !! j = Some raw ->
        exists it, items !! j = Some it /\
                   toDictationItem raw (i + j) = Normal it.
Proof.
  intros i H. destruct (map_from_no_nullish l i H) as [items E].
  exists items. split; [exact E |]. by apply map_from_lookup.
Qed.

Lemma analyzeMaterial_success (text : string) (files : list File) (mode : DictationMode)
    (response : GenerateContentResponse) (l : list value) :
  generateContent (analyzeMaterial_request text files mode) = Normal response ->
  JSON_parse (string_or (response_text response) "[]") = Normal (VArray l) ->
  existsb nullish l = false ->
  exists items,
    analyzeMaterial generateContent JSON_parse text files mode = Normal items /\
    length items = length l /\
    forall (j : nat) (raw : value),
      l !! j = Some raw ->
      exists it, items !! j = Some it /\ toDictationItem raw j = Normal it.
Proof.
  intros Hg Hp Hl. destruct (map_from_built l 0 Hl) as (items & E & Hlen & Hget).
  exists items. split; [| done].
  unfold analyzeMaterial, analyzeMaterial_try. rewrite Hg. cbn. rewrite Hp. cbn.
  unfold Array_map. rewrite E. reflexivity.
Qed.

(** X1.  When the extraction call does not fail, [analyzeMaterial] returns
    one item for every element of the payload, in the order of the payload:
    the item at a position is built from the element at that position. *)
Theorem analyzeMaterial_keeps_order (text : string) (files : list File)
    (mode : DictationMode) :
  extraction_fails generateContent JSON_parse text files mode = false ->
  exists (response : GenerateContentResponse) (l : list value)
         (items : list ReturnedItem),
    generateContent (analyzeMaterial_request text files mode) = Normal response /\
    JSON_parse (string_or (response_text response) "[]") = Normal (VArray l) /\
    analyzeMaterial generateContent JSON_parse text files mode = Normal items /\
    length items = length l /\
    forall (j : nat) (raw : value),
      l !! j = Some raw ->
      exists it, items !! j = Some it /\ content it = property raw "content".
Proof.
  unfold extraction_fails.
  destruct (generateContent _) as [response|e] eqn:Hg; [| discriminate].
  destruct (JSON_parse _) as [rawItems|e] eqn:Hp; [| discriminate].
  destruct rawItems as [| | | | |l|]; try discriminate. intros Hl.
  destruct (analyzeMaterial_success text files mode response l Hg Hp Hl)
    as (items & Ha & Hlen & Hget).
  exists response, l, items. repeat (split; [done |]).
  intros j raw Hraw. destruct (Hget j raw Hraw) as (it & Hit & Hbuilt).
  exists it. split; [done |].
  by apply toDictationItem_inv in Hbuilt as (_ & Hc & _).
Qed.

(** X2.  The paragraph flag of a returned item is never [undefined] or
    [null]: it is the [newParagraph] of the payload when that is truthy,
    and [false] otherwise, in particular when the property is missing. *)
Theorem isNewParagraph_normalized (text : string) (files : list File)
    (mode : DictationMode) (response : GenerateContentResponse)
    (l : list value) (items : list ReturnedItem) :
  generateContent (analyzeMaterial_request text files mode) = Normal response ->
  JSON_parse (string_or (response_text response) "[]") = Normal (VArray l) ->
  analyzeMaterial generateContent JSON_parse text files mode = Normal items ->
  forall (i : nat) (raw : value) (it : ReturnedItem),
    l !! i = Some raw -> items !! i = Some it ->
    isNewParagraph it = value_or (property raw "newParagraph") (VBool false) /\
    nullish (isNewParagraph it) = false /\
    (ToBoolean (property raw "newParagraph") = false ->
     isNewParagraph it = VBool false) /\
    (property raw "newParagraph" = VBool true -> isNewParagraph it = VBool true).
Proof.
  intros Hg Hp Ha i raw it Hraw Hit.
  destruct (analyzeMaterial_items _ _ _ _ _ _ _ _ Hg Hp Ha) as [-> | Hmap];
    [discriminate |].
  destruct (map_from_lookup _ _ _ _ Hmap) as [_ Hget].
  destruct (Hget i raw Hraw) as (it' & Hit' & Hbuilt).
  assert (it' = it) as -> by congruence. cbn in Hbuilt.
  destruct (nullish raw) eqn:Hn.
  { rewrite toDictationItem_nullish in Hbuilt by done. discriminate. }
  destruct (toDictationItem_normal raw i Hn) as (it' & E & _ & _ & Hflag).
  assert (it' = it) as -> by congruence.
  rewrite Hflag. unfold value_or. repeat split.
  - by destruct (property raw "newParagraph"), (ToBoolean _) eqn:E'.
  - by intros ->.
  - by intros ->.
Qed.

Lemma value_or_has_type (type : SchemaType) (v : value) :
  has_type type v ->
  match type with
  | STRING => value_or v (VString EmptyString) = v
  | BOOLEAN => value_or v (VBool false) = v
  end.
Proof. by destruct type, v as [| |[]| |[]| |]. Qed.

(** X3.  A payload whose items satisfy the schema of the mode comes back
    item for item with every property that the schema requires passed
    through to its field unchanged: no default is ever put in its place. *)
Theorem required_fields_pass_through (text : string) (files : list File)
    (mode : DictationMode) (response : GenerateContentResponse) (l : list value) :
  generateContent (analyzeMaterial_request text files mode) = Normal response ->
  JSON_parse (string_or (response_text response) "[]") = Normal (VArray l) ->
  Forall (conforms (itemSchema mode)) l ->
  exists items,
    analyzeMaterial generateContent JSON_parse text files mode = Normal items /\
    length items = length l /\
    forall (i : nat) (raw : value) (it : ReturnedItem) (name : string),
      l !! i = Some raw -> items !! i = Some it ->
      name ∈ required (itemSchema mode) ->
      field_of name it = Some (property raw name).
Proof.
  intros Hg Hp Hl.
  assert (existsb nullish l = false) as Hnn.
  { apply not_true_iff_false. intros H. apply existsb_exists in H as (raw & Hin & Hraw).
    apply list_elem_of_In in Hin. rewrite Forall_forall in Hl.
    destruct (Hl raw Hin) as [[m ->] _]. discriminate. }
  destruct (analyzeMaterial_success text files mode response l Hg Hp Hnn)
    as (items & Ha & Hlen & Hget).
  exists items. repeat (split; [done |]).
  intros i raw it name Hraw Hit Hname.
  destruct (Hget i raw Hraw) as (it' & Hit' & Hbuilt).
  assert (it' = it) as -> by congruence.
  apply toDictationItem_inv in Hbuilt as (_ & Hc & Hm & Hs & He & Hz).
  assert (nullish raw = false) as Hn.
  { rewrite Forall_forall in Hl. apply list_elem_of_lookup_2 in Hraw.
    by destruct (Hl raw Hraw) as [[m ->] _]. }
  destruct (toDictationItem_normal raw i Hn) as (it' & E & _ & _ & Hflag).
  assert (toDictationItem raw i = Normal it) as Hit''.
  { destruct (Hget i raw Hraw) as (it'' & Hit2 & Hb). congruence. }
  assert (it' = it) as -> by congruence.
  rewrite Forall_forall in Hl. apply list_elem_of_lookup_2 in Hraw.
  destruct (Hl raw Hraw) as [_ Hprops].
  destruct mode; cbn in Hname, Hprops;
    repeat (apply Forall_cons in Hprops as [? Hprops]);
    repeat (apply elem_of_cons in Hname as [-> | Hname]);
    try (by apply elem_of_nil in Hname); cbn;
    rewrite ?Hc, ?Hm, ?He, ?Hz, ?Hflag; f_equal.
  all: lazymatch goal with
       | H : _ -> has_type ?type (property _ ?k)
         |- value_or (property _ ?k) _ = _ =>
           refine (value_or_has_type type _ (H _)); set_solver
       end.
Qed.

(** X4.  A response without text, or with the empty text, is read as the
    literal [[]]: wherever [JSON.parse] turns that literal into the empty
    array, [analyzeMaterial] returns the empty list. *)
Theorem analyzeMaterial_no_text (text : string) (files : list File)
    (mode : DictationMode) (response : GenerateContentResponse) :
  generateContent (analyzeMaterial_request text files mode) = Normal response ->
  response_text response = None \/ response_text response = Some EmptyString ->
  JSON_parse "[]" = Normal (VArray []) ->
  analyzeMaterial generateContent JSON_parse text files mode = Normal [].
Proof.
  intros Hg Htext Hp. unfold analyzeMaterial, analyzeMaterial_try. rewrite Hg. cbn.
  destruct Htext as [-> | ->]; cbn; rewrite Hp; reflexivity.
Qed.

(** X6.  When the chat backend answers, the reply of [chatWithAssistant] is
    the text of the answer whenever that text is not empty, and the fixed
    encouragement when the answer has no text or an empty one. *)
Theorem chatWithAssistant_answer (history : list ChatTurn) (currentMessage : string)
    (context : option string) (response : GenerateContentResponse) :
  generateContent
    {| model_name := "gemini-2.5-flash";
       contents := prompt (chat_prompt history currentMessage context);
       config := None |} = Normal response ->
  (forall s, response_text response = Some s -> s <> EmptyString ->
             chatWithAssistant generateContent history currentMessage context
             = Normal s) /\
  (response_text response = None \/ response_text response = Some EmptyString ->
   chatWithAssistant generateContent history currentMessage context
   = Normal chat_default).
Proof.
  intros Hg. unfold chatWithAssistant, chatWithAssistant_try. rewrite Hg. cbn. split.
  - intros s -> Hs. by destruct s.
  - by intros [-> | ->].
Qed.

Variable generateSpeechContent : SpeechParameters -> completion SpeechResponse.

(** X5.  [generateSpeech] always resolves, and never with the empty string:
    it resolves with audio exactly when the backend answers with a response
    whose first candidate holds, in its first part, inline data that is
    not empty, and with [null] in every other case, a backend that throws
    included. *)
Theorem generateSpeech_result (text : string) :
  exists r : option string,
    generateSpeech generateSpeechContent text = Normal r /\
    r <> Some EmptyString /\
    (forall audio,
       r = Some audio <->
       exists response,
         generateSpeechContent (generateSpeech_request text) = Normal response /\
         base64Audio response = Some audio /\ audio <> EmptyString).
Proof.
  unfold generateSpeech, generateSpeech_try.
  destruct (generateSpeechContent _) as [response|e] eqn:Hg; cbn.
  - exists (or_null (base64Audio response)). split; [reflexivity |].
    assert (forall audio, or_null (base64Audio response) = Some audio <->
                          base64Audio response = Some audio /\ audio <> EmptyString)
      as Hor.
    { intros audio. destruct (base64Audio response) as [[|c s]|]; cbn;
        split; try done; try (by intros [[= <-] ?]). by intros [= <-]. }
    split.
    + intros H. apply Hor in H as [_ H]. done.
    + intros audio. rewrite Hor. split.
      * intros [? ?]. by exists response.
      * by intros (response' & [= <-] & ? & ?).
  - exists None. split; [reflexivity |]. split; [done |].
    intros audio. split; [done |]. by intros (response & ? & _).
Qed.

End Services.

(** * More on the practice session *)

#[local] Set Warnings "-clear-no-such-hyp".

Section Invariants.
Import JS Types Practice.

Variable props : Props.
Variable window : Window.

(** A kind that a list of kinds, written out, does not hold. *)
Ltac absent :=
  repeat (apply not_elem_of_cons; split; [discriminate |]); apply not_elem_of_nil.

(** *** What a command of a kind leaves alone *)

Lemma commit_keeps {A} (proj : State -> A) (K : Kind) :
  (forall c st, kind c <> K -> proj (apply c st) = proj st) ->
  forall (cs : list Cmd) (st : State),
    Forall (fun c => kind c <> K) cs -> proj (commit cs st) = proj st.
Proof.
  intros Hproj cs. induction cs as [|c cs IH]; intros st H; [reflexivity |].
  apply Forall_cons in H as [Hc Hcs].
  change (proj (commit cs (apply c st)) = proj st).
  by rewrite IH, Hproj.
Qed.

Lemma settle_cases (cs : list Cmd) (st : State) :
  settle cs st = commit cs st \/
  (currentIndex (commit cs st) <> currentIndex st /\
   settle cs st = apply (setStage reading) (commit cs st)).
Proof.
  unfold settle, renders. case_decide; [by left | by right].
Qed.

(** The fields of the state, each with the kind of command that writes
    it. *)
Lemma settle_frame (ks : list Kind) (cs : list Cmd) (st : State) :
  Forall (fun c => kind c ∈ ks) cs ->
  (index_kind ∉ ks -> currentIndex (settle cs st) = currentIndex st) /\
  (index_kind ∉ ks -> stage_kind ∉ ks -> stage (settle cs st) = stage st) /\
  (emotion_kind ∉ ks -> robotEmotion (settle cs st) = robotEmotion st) /\
  (messages_kind ∉ ks -> messages (settle cs st) = messages st) /\
  (input_kind ∉ ks -> chatInput (settle cs st) = chatInput st) /\
  (listening_kind ∉ ks -> isListening (settle cs st) = isListening st) /\
  (lang_kind ∉ ks -> inputLang (settle cs st) = inputLang st).
Proof.
  intros Hcs.
  assert (forall K, K ∉ ks -> Forall (fun c => kind c <> K) cs) as Hnot.
  { intros K HK. eapply Forall_impl; [exact Hcs |]. cbn. intros c Hc Heq.
    by rewrite Heq in Hc. }
  assert (index_kind ∉ ks -> settle cs st = commit cs st) as Hsame.
  { intros HK. destruct (settle_cases cs st) as [-> | [Hmoved _]]; [done |].
    destruct Hmoved. apply (commit_keeps currentIndex index_kind); [| auto].
    by intros []. }
  repeat split.
  - intros HK. rewrite Hsame by done.
    apply (commit_keeps currentIndex index_kind); [by intros [] | auto].
  - intros HK HK'. rewrite Hsame by done.
    apply (commit_keeps stage stage_kind); [by intros [] | auto].
  - intros HK. destruct (settle_cases cs st) as [-> | [_ ->]]; cbn;
      (apply (commit_keeps robotEmotion emotion_kind); [by intros [] | auto]).
  - intros HK. destruct (settle_cases cs st) as [-> | [_ ->]]; cbn;
      (apply (commit_keeps messages messages_kind); [by intros [] | auto]).
  - intros HK. destruct (settle_cases cs st) as [-> | [_ ->]]; cbn;
      (apply (commit_keeps chatInput input_kind); [by intros [] | auto]).
  - intros HK. destruct (settle_cases cs st) as [-> | [_ ->]]; cbn;
      (apply (commit_keeps isListening listening_kind); [by intros [] | auto]).
  - intros HK. destruct (settle_cases cs st) as [-> | [_ ->]]; cbn;
      (apply (commit_keeps inputLang lang_kind); [by intros [] | auto]).
Qed.

(** *** What the handlers issue *)

Lemma voice_only_kind (c : Cmd) :
  voice_only c -> kind c ∈ [emotion_kind; synthesizer_kind; notice_kind].
Proof. destruct c; cbn; try done; set_solver. Qed.

Lemma speakText_voice_only (win : Window) (text : string) (isSlow : bool) :
  Forall voice_only (cmds (speakText props win text isSlow)).
Proof.
  unfold speakText.
  destruct (is_cantonese (audioLanguage props)), (speechSynthesis win);
    cbn; by repeat constructor.
Qed.

Lemma speakMeaning_voice_only (st : State) (win : Window) :
  Forall voice_only (cmds (speakMeaning props st win)).
Proof.
  unfold speakMeaning. apply cmds_bind; [apply field_cmds |].
  intros meaning. apply speakText_voice_only.
Qed.

Lemma voice_only_fits (e : Event) (cs : list Cmd) :
  emotion_kind ∈ writes e -> synthesizer_kind ∈ writes e ->
  notice_kind ∈ writes e ->
  Forall voice_only cs -> Forall (fits e) cs.
Proof.
  intros He Hs Hn H. eapply Forall_impl; [exact H |].
  intros c Hc. by destruct c; cbn in Hc |- *.
Qed.

Lemma handler_fits (e : Event) (w : World) : Forall (fits e) (handler props window e w).
Proof.
  destruct e; cbn [handler].
  - unfold handleNext. destruct (stage (ui w)).
    + repeat constructor; set_solver.
    + destruct (_ <? _)%Z; repeat constructor; cbn; try set_solver; eauto.
  - unfold handlePlayAudio.
    destruct (mode props);
      (apply cmds_bind; [apply field_cmds | intros text]);
      try (apply voice_only_fits; [set_solver .. | apply speakText_voice_only]).
    apply cmds_bind;
      [apply voice_only_fits; [set_solver .. | apply speakText_voice_only] |].
    intros _. unfold tell. cbn [cmds]. apply Forall_cons. split; [| constructor].
    split; [cbn; set_solver |]. intros win. apply speakMeaning_voice_only.
  - repeat constructor; set_solver.
  - unfold toggleListening.
    destruct (isListening (ui w)), (SpeechRecognition window);
      repeat constructor; set_solver.
  - repeat constructor; set_solver.
  - repeat constructor; set_solver.
  - unfold handleChatSubmit. destruct (String.eqb _ _); [constructor |].
    apply cmds_bind.
    { repeat constructor; cbn; try set_solver; eauto. }
    intros _. apply cmds_bind; [apply field_cmds | intros current].
    apply cmds_bind; [apply field_cmds | intros meaning]. constructor.
  - repeat constructor; cbn; try set_solver; eauto.
  - unfold recognition_onstart. destruct (speechSynthesis window);
      repeat constructor; set_solver.
  - unfold recognition_onresult. destruct (Array_map _ _);
      repeat constructor; set_solver.
  - repeat constructor; set_solver.
  - repeat constructor; set_solver.
  - repeat constructor; set_solver.
  - repeat constructor; set_solver.
  - constructor.
Qed.

Lemma fits_kind (e : Event) (cs : list Cmd) :
  Forall (fits e) cs -> Forall (fun c => kind c ∈ writes e) cs.
Proof. intros H. eapply Forall_impl; [exact H |]. by intros c [? _]. Qed.

(** The state that the handler of an event starts from. *)
Lemma step_handler (e : Event) (w : World) :
  (forall dt, e <> time_passes dt) ->
  exists w0, ui w0 = ui w /\ timers w0 = timers w /\
             step props window e w = run (handler props window e w) w0.
Proof.
  intros He. destruct e; try (by exists w); try (by exists (silence w)).
  by destruct (He dt).
Qed.

(** *** Timers *)

Lemma exec_fits_timers (e : Event) (c : Cmd) (w : World) :
  fits e c -> timers_voice_only w -> timers_voice_only (exec c w).
Proof.
  intros [_ Hc] Hw. destruct c; try done. unfold timers_voice_only. cbn.
  apply Forall_app. split; [exact Hw |]. by constructor.
Qed.

Lemma run_fits_timers (e : Event) (cs : list Cmd) :
  forall w : World,
    Forall (fits e) cs -> timers_voice_only w -> timers_voice_only (run cs w).
Proof.
  unfold run, timers_voice_only. cbn [timers with_ui].
  induction cs as [|c cs IH]; intros w H Hw; [exact Hw |].
  apply Forall_cons in H as [Hc Hcs]. cbn [foldl].
  apply IH; [done |]. by apply (exec_fits_timers e).
Qed.

Lemma run_voice_only (cs : list Cmd) (w : World) :
  Forall voice_only cs ->
  same_but_emotion (ui w) (ui (run cs w)) /\ timers (run cs w) = timers w.
Proof.
  intros H. split.
  - assert (Forall (fun c => kind c ∈ [emotion_kind; synthesizer_kind; notice_kind]) cs)
      as Hk.
    { eapply Forall_impl; [exact H | apply voice_only_kind]. }
    rewrite ui_run.
    destruct (settle_frame _ cs (ui w) Hk) as (Hi & Hs & _ & Hm & Hc & Hl & Hg).
    repeat split; [apply Hi | apply Hs | apply Hm | apply Hc | apply Hl | apply Hg];
      absent.
  - apply foldl_exec_plain. eapply Forall_impl; [exact H |]. by intros [].
Qed.

Lemma same_but_emotion_trans (st1 st2 st3 : State) :
  same_but_emotion st1 st2 -> same_but_emotion st2 st3 -> same_but_emotion st1 st3.
Proof.
  intros (? & ? & ? & ? & ? & ?) (? & ? & ? & ? & ? & ?).
  repeat split; congruence.
Qed.

Lemma fires_voice_only (due : list (N * (Window -> Script Cmd unit))) :
  forall w : World,
    Forall (fun timer => forall win, Forall voice_only (cmds (timer.2 win))) due ->
    same_but_emotion (ui w) (ui (foldl (fire window) w due)) /\
    timers (foldl (fire window) w due) = timers w.
Proof.
  induction due as [|timer due IH]; intros w H; [done |].
  apply Forall_cons in H as [Htimer Hdue]. cbn [foldl].
  destruct (IH (fire window w timer) Hdue) as [Hui Ht].
  destruct (run_voice_only (cmds (timer.2 window)) (with_clock timer.1 w)
              (Htimer window)) as [Hui' Ht'].
  split.
  - eapply same_but_emotion_trans; [exact Hui' | exact Hui].
  - rewrite Ht. exact Ht'.
Qed.

Lemma elapse_voice_only (dt : N) (w : World) :
  timers_voice_only w ->
  same_but_emotion (ui w) (ui (elapse window dt w)) /\
  timers_voice_only (elapse window dt w).
Proof.
  intros Hw. unfold elapse.
  lazymatch goal with
  | |- context [foldl (fire window) ?w0 ?due] =>
      destruct (fires_voice_only due w0) as [Hui Ht]
  end.
  { by apply Forall_filter_keeps. }
  split; [exact Hui |].
  unfold timers_voice_only, with_clock. cbn [timers]. rewrite Ht.
  unfold with_timers. cbn [timers]. by apply Forall_filter_keeps.
Qed.

Lemma step_timers_voice_only (e : Event) (w : World) :
  timers_voice_only w -> timers_voice_only (step props window e w).
Proof.
  intros Hw.
  assert ((forall dt, e <> time_passes dt) \/ exists dt, e = time_passes dt)
    as [He | [dt ->]] by (destruct e; eauto).
  - destruct (step_handler e w He) as (w0 & _ & Ht & ->).
    apply (run_fits_timers e); [apply handler_fits |].
    unfold timers_voice_only. by rewrite Ht.
  - by apply elapse_voice_only.
Qed.

Lemma reachable_timers_voice_only (w : World) :
  reachable props window w -> timers_voice_only w.
Proof.
  intros [es ->]. induction es as [|e es IH] using rev_ind; [constructor |].
  unfold steps. rewrite foldl_app. cbn. by apply step_timers_voice_only.
Qed.

(** Every event writes to the fields of its own and to no other. *)
Lemma step_frame (e : Event) (w : World) :
  reachable props window w ->
  (index_kind ∉ writes e ->
   currentIndex (ui (step props window e w)) = currentIndex (ui w)) /\
  (index_kind ∉ writes e -> stage_kind ∉ writes e ->
   stage (ui (step props window e w)) = stage (ui w)) /\
  (emotion_kind ∉ writes e ->
   robotEmotion (ui (step props window e w)) = robotEmotion (ui w)) /\
  (messages_kind ∉ writes e ->
   messages (ui (step props window e w)) = messages (ui w)) /\
  (input_kind ∉ writes e ->
   chatInput (ui (step props window e w)) = chatInput (ui w)) /\
  (listening_kind ∉ writes e ->
   isListening (ui (step props window e w)) = isListening (ui w)) /\
  (lang_kind ∉ writes e ->
   inputLang (ui (step props window e w)) = inputLang (ui w)).
Proof.
  intros Hw. apply reachable_timers_voice_only in Hw.
  assert ((forall dt, e <> time_passes dt) \/ exists dt, e = time_passes dt)
    as [He | [dt ->]] by (destruct e; eauto).
  - destruct (step_handler e w He) as (w0 & Hui & _ & ->).
    rewrite ui_run, Hui.
    apply settle_frame, fits_kind, handler_fits.
  - destruct (elapse_voice_only dt w Hw) as [(Hi & Hs & Hm & Hc & Hl & Hg) _].
    cbn [step]. repeat split; intros; try done. set_solver.
Qed.

(** X7.  In a session, nothing but a press on the button of [handleNext]
    changes the index or the stage: playing or replaying the audio, the
    microphone and its callbacks, the chat, the mascot, the end of an
    utterance and the passing of time leave both as they are. *)
Theorem only_next_moves_position (e : Event) (w : World) :
  reachable props window w ->
  (forall now, e <> click_next now) ->
  currentIndex (ui (step props window e w)) = currentIndex (ui w) /\
  stage (ui (step props window e w)) = stage (ui w).
Proof.
  intros Hw He. destruct (step_frame e w Hw) as (Hi & Hs & _).
  assert ((index_kind ∉ writes e) /\ (stage_kind ∉ writes e)) as [? ?].
  { destruct e; try (by destruct (He now)); split; absent. }
  auto.
Qed.

Lemma commit_appends (e : Event) (cs : list Cmd) :
  forall st : State,
    Forall (fits e) cs -> exists l, messages (commit cs st) = messages st ++ l.
Proof.
  induction cs as [|c cs IH]; intros st H.
  - exists []. by rewrite app_nil_r.
  - apply Forall_cons in H as [[_ Hc] Hcs].
    destruct (IH (apply c st) Hcs) as [l Hl].
    change (commit (c :: cs) st) with (commit cs (apply c st)). rewrite Hl.
    destruct c; try (by exists l).
    destruct Hc as [m Hm]. cbn. rewrite Hm, <- app_assoc. eauto.
Qed.

(** X8.  The message log only ever grows at its end: every event of a
    session leaves the messages that are there in place and in order, and
    only a press on the button of [handleNext], the submission of the chat
    and the reply to it add to them. *)
Theorem message_log_grows (e : Event) (w : World) :
  reachable props window w ->
  exists l, messages (ui (step props window e w)) = messages (ui w) ++ l /\
            (messages_kind ∉ writes e -> l = []).
Proof.
  intros Hw. destruct (step_frame e w Hw) as (_ & _ & _ & Hm & _).
  destruct (decide (messages_kind ∈ writes e)) as [Hin | Hout].
  - assert (forall dt, e <> time_passes dt) as He.
    { intros dt ->. revert Hin. absent. }
    destruct (step_handler e w He) as (w0 & Hui & _ & ->).
    rewrite ui_run, Hui.
    destruct (commit_appends e (handler props window e w) (ui w)
                (handler_fits e w)) as [l Hl].
    exists l. split; [| done].
    destruct (settle_cases (handler props window e w) (ui w)) as [-> | [_ ->]];
      exact Hl.
  - exists []. rewrite app_nil_r. auto.
Qed.

Lemma step_next (now : N) (w : World) :
  ui (step props window (click_next now) w) = advance props now (ui w).
Proof. reflexivity. Qed.

Lemma advance_in_range (now : N) (st : State) :
  currentIndex st < length (items props) ->
  currentIndex (advance props now st) < length (items props).
Proof.
  intros H. destruct (stage st) eqn:Hstage.
  - by rewrite advance_reading.
  - destruct (Z.lt_decidable (Z.of_nat (currentIndex st))
                (Z.of_nat (length (items props)) - 1)) as [Hnext | Hlast].
    + rewrite advance_next by done. cbn. lia.
    + by rewrite advance_last.
Qed.

(** X9.  In a session on a list that is not empty the index stays within
    the list, so that the current item is always one of the list. *)
Theorem index_in_range (w : World) :
  reachable props window w ->
  items props <> [] ->
  currentIndex (ui w) < length (items props) /\
  is_Some (currentItem props (ui w)).
Proof.
  intros Hw Hitems.
  assert (currentIndex (ui w) < length (items props)) as Hlt.
  { destruct Hw as [es ->]. induction es as [|e es IH] using rev_ind.
    - cbn. destruct (items props); [done | cbn; lia].
    - unfold steps in *. rewrite foldl_app. cbn [foldl].
      assert ((exists now, e = click_next now) \/ index_kind ∉ writes e)
        as [[now ->] | He].
      { destruct e; eauto; right; absent. }
      + rewrite step_next. by apply advance_in_range.
      + lazymatch goal with
        | |- context [step props window e ?w0] =>
            destruct (step_frame e w0) as (-> & _); [by exists es | done | done]
        end. }
  split; [exact Hlt |]. by apply lookup_lt_is_Some.
Qed.

Lemma step_lang (w : World) :
  inputLang (ui (step props window click_lang w))
  = if String.eqb (inputLang (ui w)) "zh-HK" then "zh-CN"
    else if String.eqb (inputLang (ui w)) "zh-CN" then "en-US"
    else "zh-HK".
Proof.
  cbn [step]. rewrite ui_run, settle_tame by (by repeat constructor). reflexivity.
Qed.

Lemma reachable_inputLang (w : World) :
  reachable props window w -> known_inputLang (inputLang (ui w)).
Proof.
  intros [es ->]. induction es as [|e es IH] using rev_ind.
  - by left.
  - unfold steps in *. rewrite foldl_app. cbn [foldl].
    assert (e = click_lang \/ lang_kind ∉ writes e) as [-> | He].
    { destruct e; eauto; right; absent. }
    + rewrite step_lang. unfold known_inputLang.
      destruct (String.eqb _ "zh-HK"); [auto |].
      destruct (String.eqb _ "zh-CN"); auto.
    + lazymatch goal with
      | |- context [step props window e ?w0] =>
          destruct (step_frame e w0) as (_ & _ & _ & _ & _ & _ & ->);
            [by exists es | done | done]
      end.
Qed.

(** X10.  The recognition language of a session is always one of the
    three that the toggle rotates through, so its label is one of the three
    known labels; every press on the toggle changes it, and three presses
    bring it back. *)
Theorem inputLang_rotates (w : World) :
  reachable props window w ->
  known_inputLang (inputLang (ui w)) /\
  getInputLangLabel (ui w) <> inputLang (ui w) /\
  inputLang (ui (step props window click_lang w)) <> inputLang (ui w) /\
  inputLang (ui (steps props window [click_lang; click_lang; click_lang] w))
  = inputLang (ui w).
Proof.
  intros Hw. pose proof (reachable_inputLang w Hw) as Hknown.
  split; [exact Hknown |].
  unfold steps. cbn [foldl]. rewrite !step_lang. unfold getInputLangLabel.
  destruct Hknown as [-> | [-> | ->]]; cbn; done.
Qed.

(** X11.  With the answer shown, the label of the button and what the
    button does agree: it reads [finish_label] exactly when there is no
    next item, and then a press keeps the index and appends the
    congratulation; it reads [next_label] otherwise, and then a press moves
    to the next item and appends nothing. *)
Theorem label_agrees_with_press (now : N) (st : State) :
  stage st = revealed ->
  (nextButtonLabel props st = finish_label /\
   currentIndex (advance props now st) = currentIndex st /\
   messages (advance props now st) = messages st ++ [finished_message now]) \/
  (nextButtonLabel props st = next_label /\
   currentIndex (advance props now st) = S (currentIndex st) /\
   messages (advance props now st) = messages st).
Proof.
  intros Hstage. unfold nextButtonLabel.
  destruct (Z.ltb_spec (Z.of_nat (currentIndex st))
              (Z.of_nat (length (items props)) - 1)) as [Hnext | Hlast].
  - right. rewrite advance_next by done. cbn. split; [done |]. split; [lia | done].
  - left. rewrite advance_last by (done || (unfold has_next; lia)). done.
Qed.

Lemma presses_before_finish (nows : list N) :
  length nows < 2 * length (items props) ->
  let st := foldl (fun s now => advance props now s) initialState nows in
  2 * currentIndex st + (if stage st is revealed then 1 else 0) = length nows /\
  messages st = messages initialState.
Proof.
  induction nows as [|now nows IH] using rev_ind; intros Hlen; [done |].
  rewrite length_app in Hlen. cbn in Hlen.
  rewrite foldl_app, length_app. cbn [foldl length].
  destruct IH as [Hcount Hmessages]; [lia |].
  set (st := foldl (fun s now => advance props now s) initialState nows) in *.
  destruct (stage st) eqn:Hstage.
  - rewrite advance_reading by done. cbn. split; [lia | done].
  - rewrite advance_next; [cbn; split; [lia | done] | done |].
    unfold has_next. lia.
Qed.

(** X12.  From the start of a session on [n] items, the first [2 n - 1]
    presses on the button of [handleNext] show the answer and move on in
    turn and add no message: after [k] of them the index is [k / 2] and the
    answer is shown exactly when [k] is odd.  The congratulation comes with
    press [2 n], and not before. *)
Theorem presses_to_finish (nows : list N) (now : N) :
  length nows < 2 * length (items props) ->
  let st := foldl (fun s now => advance props now s) initialState nows in
  currentIndex st = length nows / 2 /\
  stage st = (if Nat.even (length nows) then reading else revealed) /\
  messages st = messages initialState /\
  (S (length nows) = 2 * length (items props) ->
   messages (advance props now st) = messages initialState ++ [finished_message now]).
Proof.
  intros Hlen st. destruct (presses_before_finish nows Hlen) as [Hcount Hmessages].
  fold st in Hcount, Hmessages.
  destruct (stage st) eqn:Hstage.
  - assert (length nows = 2 * currentIndex st) as Hk by lia.
    split; [rewrite Hk; by rewrite Nat.mul_comm, Nat.div_mul |].
    split; [by rewrite Hk, Nat.even_mul |]. split; [done |]. lia.
  - assert (length nows = S (2 * currentIndex st)) as Hk by lia.
    split.
    { rewrite Hk. apply (Nat.div_unique _ 2 _ 1); lia. }
    split; [by rewrite Hk, Nat.even_succ, Nat.odd_mul |]. split; [done |].
    intros Hlast. rewrite advance_last, Hmessages; [done | done |].
    unfold has_next. lia.
Qed.

(** *** Playing *)

Lemma handlePlayAudio_single (voices : list SpeechSynthesisVoice)
    (item : DictationItem) (st : State) :
  mode props <> idiom ->
  speechSynthesis window = Some voices ->
  currentItem props st = Some item ->
  cmds (handlePlayAudio props window st)
  = [setRobotEmotion speaking; speechSynthesis_cancel;
     speechSynthesis_speak
       (makeUtterance props voices (content item)
          (if mode props is paragraph then true else false))].
Proof.
  intros Hmode Hsynth Hitem. unfold handlePlayAudio. rewrite Hitem.
  destruct (mode props); [| | done];
    cbn -[speakText]; by rewrite (speakText_cmds props window voices).
Qed.

(** X13.  In paragraph and in vocabulary mode, with speech synthesis at
    hand, a press on the play button hands exactly one utterance to the
    synthesizer, the content of the current item, at the reduced rate in
    paragraph mode and at the normal rate in vocabulary mode; it takes the
    place of whatever was being said, sets no timer, and nothing follows
    it as long as the play button is left alone. *)
Theorem single_utterance_play (voices : list SpeechSynthesisVoice)
    (item : DictationItem) (w : World) (es : list Event) :
  mode props <> idiom ->
  speechSynthesis window = Some voices ->
  currentItem props (ui w) = Some item ->
  let U := makeUtterance props voices (content item)
             (if mode props is paragraph then true else false) in
  utterance_text U = content item /\
  rate U = (if mode props is paragraph then slow_rate else normal_rate) /\
  spoken (step props window click_play w) = spoken w ++ [(clock w, U)] /\
  nowSpeaking (step props window click_play w) = Some U /\
  timers (step props window click_play w) = timers w /\
  (timers w = [] -> existsb is_play es = false ->
   spoken (steps props window (click_play :: es) w) = spoken w ++ [(clock w, U)]).
Proof.
  intros Hmode Hsynth Hitem U. subst U.
  split; [apply makeUtterance_text_rate |].
  split; [destruct (mode props); apply makeUtterance_text_rate |].
  change (steps props window (click_play :: es) w)
    with (steps props window es (step props window click_play w)).
  cbn [step]. rewrite (handlePlayAudio_single voices item) by done.
  repeat (split; [reflexivity |]).
  intros Hw Hes. by rewrite idle_says_nothing.
Qed.

Lemma speakText_unavailable (text : string) (isSlow : bool) :
  speechSynthesis window = None ->
  speakText props window text isSlow
  = match audioLanguage props with
    | cantonese =>
        {| cmds := [setRobotEmotion speaking]; result := Throw TypeError |}
    | mandarin =>
        {| cmds := [setRobotEmotion speaking; setRobotEmotion idle;
                    alert tts_unsupported_notice];
           result := Normal tt |}
    end.
Proof.
  intros H. unfold speakText. rewrite H. by destruct (audioLanguage props).
Qed.

(** X14.  Without speech synthesis in the browser a press on the play
    button says nothing.  With Mandarin chosen, the notice about the
    missing synthesis is shown and the robot is idle again.  With Cantonese
    chosen, [speakText] throws on the missing synthesizer: no notice is
    shown, no timer is set and the robot keeps the emotion [speaking]. *)
Theorem play_without_synthesis (item : DictationItem) (w : World) :
  speechSynthesis window = None ->
  currentItem props (ui w) = Some item ->
  spoken (step props window click_play w) = spoken w /\
  nowSpeaking (step props window click_play w) = nowSpeaking w /\
  match audioLanguage props with
  | mandarin =>
      alerts (step props window click_play w)
      = alerts w ++ [tts_unsupported_notice] /\
      robotEmotion (ui (step props window click_play w)) = idle
  | cantonese =>
      alerts (step props window click_play w) = alerts w /\
      timers (step props window click_play w) = timers w /\
      robotEmotion (ui (step props window click_play w)) = speaking
  end.
Proof.
  intros Hsynth Hitem. cbn [step].
  assert (forall cs, Forall tame cs ->
            robotEmotion (ui (run cs w)) = robotEmotion (commit cs (ui w))) as Hui.
  { intros cs Hcs. by rewrite ui_run, settle_tame. }
  pose proof (handlePlayAudio_tame props window (ui w)) as Htame.
  rewrite Hui by done. revert Htame. unfold handlePlayAudio. rewrite Hitem.
  destruct (mode props); cbn -[speakText];
    rewrite !speakText_unavailable by done;
    by destruct (audioLanguage props).
Qed.

(** X15.  The utterance that [speakText] builds is in Cantonese exactly
    when Cantonese is chosen and some voice of the browser has [HK] or
    [yue] in its language tag, and in Mandarin in every other case.  Its
    voice, when it has one, is a voice of the browser whose tag matches:
    [HK] or [yue] for Cantonese, [CN] or [zh] for Mandarin; a Mandarin
    utterance has no voice only when no voice of the browser has [CN] or
    [zh] in its tag. *)
Theorem voice_selection (voices : list SpeechSynthesisVoice) (text : string)
    (isSlow : bool) :
  let U := makeUtterance props voices text isSlow in
  let is_hk v := includes "HK" (lang v) || includes "yue" (lang v) in
  let is_cn v := includes "CN" (lang v) || includes "zh" (lang v) in
  (utterance_lang U = "zh-HK" <->
   audioLanguage props = cantonese /\ exists v, v ∈ voices /\ is_hk v = true) /\
  (utterance_lang U <> "zh-HK" -> utterance_lang U = "zh-CN") /\
  (forall v, voice U = Some v ->
             v ∈ voices /\
             if String.eqb (utterance_lang U) "zh-HK" then is_hk v = true
             else is_cn v = true) /\
  (voice U = None -> forall v, v ∈ voices -> is_cn v = false).
Proof.
  intros U is_hk is_cn. subst U. unfold makeUtterance.
  fold is_hk. fold is_cn.
  assert (forall (p : SpeechSynthesisVoice -> bool) x,
            find p voices = Some x -> x ∈ voices /\ p x = true) as Hsome.
  { intros p x H. apply find_some in H as [H ?]. by apply list_elem_of_In in H. }
  assert (forall p : SpeechSynthesisVoice -> bool,
            find p voices = None -> forall x, x ∈ voices -> p x = false) as Hnone.
  { intros p H x Hx. apply list_elem_of_In in Hx. by apply (find_none _ _ H). }
  destruct (find is_hk voices) as [hk|] eqn:Hhk;
    destruct (find is_cn voices) as [cn|] eqn:Hcn;
    destruct (audioLanguage props); cbn;
    try (apply Hsome in Hhk as [? ?]); try (apply Hsome in Hcn as [? ?]);
    try (pose proof (Hnone _ Hhk)); try (pose proof (Hnone _ Hcn));
    repeat split; try done; intros; simplify_eq; eauto; try naive_solver.
  all: lazymatch goal with
       | H : _ /\ (exists v, _) |- _ => destruct H as [_ (v & Hv & Ht)]
       end.
  all: match goal with
       | Hn : forall x, x ∈ _ -> _ x = false |- _ =>
           rewrite (Hn _ Hv) in Ht; discriminate
       end.
Qed.

(** *** The chat *)

Lemma lookup_map {A B} (f : A -> B) (l : list A) (i : nat) :
  map f l !! i = f <$> l !! i.
Proof.
  revert i. induction l as [|x l IH]; intros [|i]; cbn; auto.
Qed.

(** X18.  The history sent with a chat message is the tail of the message
    log as it was when the message was submitted: its five last messages,
    or all of them when there are fewer, in their order, each with its role
    and its text (the empty string for a message without text); the message
    sent is the input as it was typed. *)
Theorem chat_history_window (now : N) (st : State) (call : ChatCall) :
  result (handleChatSubmit props now st) = Normal (Some call) ->
  length (call_history call) = min 5 (length (messages st)) /\
  call_message call = chatInput st /\
  forall (i : nat) (turn : GeminiService.ChatTurn),
    call_history call !! i = Some turn ->
    exists m,
      messages st !! (length (messages st) - length (call_history call) + i) = Some m /\
      GeminiService.turn_role turn = role m /\
      GeminiService.turn_text turn = string_or (text m) EmptyString.
Proof.
  unfold handleChatSubmit. destruct (String.eqb _ _); [discriminate |].
  destruct (currentItem props st) as [item|]; [| discriminate].
  intros Hcall. cbn in Hcall. injection Hcall as <-. cbn [call_history call_message].
  rewrite length_map, length_drop. split; [lia |]. split; [reflexivity |].
  intros i turn. rewrite lookup_map, lookup_drop.
  replace (length (messages st) - (length (messages st) - (length (messages st) - 5)))
    with (length (messages st) - 5) by lia.
  destruct (messages st !! _) as [m|]; [| discriminate].
  cbn. intros [= <-]. by exists m.
Qed.

Lemma run_nothing (w : World) : run [] w = w.
Proof.
  unfold run, settle, renders. cbn. case_decide; [| done]. by destruct w.
Qed.

Variable generateContent :
  GeminiService.GenerateContentParameters ->
  completion GeminiService.GenerateContentResponse.
Variable generateSpeechContent :
  GeminiService.SpeechParameters -> completion GeminiService.SpeechResponse.

(** X17.  A chat input that is empty or white space only is not sent:
    submitting it changes nothing, calls neither the chat backend nor the
    speech backend and plays no audio. *)
Theorem blank_chat_ignored (now now' : N) (w : World) :
  WhiteSpaceOnly (chatInput (ui w)) ->
  submitChat generateContent generateSpeechContent props now now' w = (w, None) /\
  result (handleChatSubmit props now (ui w)) = Normal None.
Proof.
  intros H. unfold submitChat, handleChatSubmit.
  rewrite trim_WhiteSpaceOnly by done. cbn. by rewrite run_nothing.
Qed.

Lemma chatWithAssistant_resolves (history : list GeminiService.ChatTurn)
    (message : string) (context : option string) :
  exists reply,
    GeminiService.chatWithAssistant generateContent history message context
    = Normal reply /\
    reply <> EmptyString /\
    ((forall request, exists e, generateContent request = Throw e) ->
     reply = GeminiService.chat_fallback).
Proof.
  unfold GeminiService.chatWithAssistant, GeminiService.chatWithAssistant_try.
  destruct (generateContent _) as [response|e] eqn:Hg; cbn.
  - eexists. split; [reflexivity |]. split.
    + by destruct (GeminiService.response_text response) as [[|c s]|].
    + intros Hdown.
      lazymatch type of Hg with
      | generateContent ?request = _ => destruct (Hdown request) as [e He]
      end.
      rewrite He in Hg. discriminate.
  - eexists. split; [reflexivity |]. done.
Qed.

(** X16.  A chat message that is not blank, submitted on a current item,
    always comes to its end, whatever the two backends do: the log gains
    the message of the user and then a reply of the model that is not
    empty, the input is cleared, the robot is idle, the index and the stage
    are as before and nothing has been handed to the local synthesizer.
    When the chat backend throws on every request, the reply is the fixed
    fallback.  The audio handed to the decoder, if any, is not empty. *)
Theorem chat_round (now now' : N) (w : World) (item : DictationItem) :
  trim (chatInput (ui w)) <> EmptyString ->
  currentItem props (ui w) = Some item ->
  exists (reply : string) (audio : option string) (w' : World),
    submitChat generateContent generateSpeechContent props now now' w = (w', audio) /\
    reply <> EmptyString /\
    messages (ui w')
    = messages (ui w) ++ [textMessage (pretty now) user (chatInput (ui w));
                          textMessage (pretty now') model reply] /\
    chatInput (ui w') = EmptyString /\
    robotEmotion (ui w') = idle /\
    currentIndex (ui w') = currentIndex (ui w) /\
    stage (ui w') = stage (ui w) /\
    spoken w' = spoken w /\
    audio <> Some EmptyString /\
    ((forall request, exists e, generateContent request = Throw e) ->
     reply = GeminiService.chat_fallback).
Proof.
  intros Hinput Hitem. unfold submitChat, handleChatSubmit.
  apply String.eqb_neq in Hinput. rewrite Hinput, Hitem.
  cbn -[GeminiService.chatWithAssistant GeminiService.generateSpeech
        run handleChatSubmit_reply].
  lazymatch goal with
  | |- context [GeminiService.chatWithAssistant generateContent ?h ?m ?c] =>
      destruct (chatWithAssistant_resolves h m c) as (reply & -> & Hreply & Hdown)
  end.
  assert (exists audio,
            GeminiService.generateSpeech generateSpeechContent reply = Normal audio /\
            audio <> Some EmptyString) as (audio & -> & Haudio).
  { unfold GeminiService.generateSpeech, GeminiService.generateSpeech_try.
    destruct (generateSpeechContent _) as [response|e]; cbn; [| by eexists].
    eexists. split; [reflexivity |].
    by destruct (GeminiService.base64Audio response) as [[|c s]|]. }
  eexists reply, audio, _. split; [reflexivity |].
  split; [exact Hreply |].
  rewrite !ui_run, !settle_tame by (by repeat constructor).
  cbn. rewrite <- app_assoc. repeat (split; [done |]). done.
Qed.

End Invariants.

(** ** The application shell, the set-up form and the worksheet *)

Section Shell.

Import JS Types.

Lemma TargetView_view_cases (t : App.TargetView) :
  App.TargetView_view t = practice \/ App.TargetView_view t = worksheet.
Proof. destruct t; auto. Qed.

(** X19.  Whatever start requests and back presses the application has
    seen, it shows the set-up form exactly when it holds no items, it never
    shows the report view, and its position is the first item. *)
Theorem app_view_matches_items (w : App.World) :
  App.reachable w ->
  (view (App.appState w) = setup <-> dictationList (App.appState w) = []) /\
  view (App.appState w) <> report /\
  currentIndex (App.appState w) = 0.
Proof.
  intros [es ->].
  induction es as [|e es IH] using rev_ind.
  - cbn. repeat split; congruence.
  - rewrite foldl_app. cbn [foldl].
    set (w := foldl _ _ es) in *.
    destruct IH as (IHv & IHr & IHi).
    destruct e as [items m l tv|]; cbn [App.step].
    + unfold App.handleStart.
      destruct items as [|item items]; cbn [length Nat.eqb App.appState].
      * auto.
      * cbn.
        destruct (TargetView_view_cases (default App.toPractice tv)) as [-> | ->];
          repeat split; congruence.
    + cbn. repeat split; congruence.
Qed.

Lemma filter_from_drops {A} (index : nat) (l : list A) (from : nat) :
  Setup.filter_from (fun _ i => negb (i =? index)%nat) from l =
  if decide (from <= index)%nat
  then take (index - from) l ++ drop (S (index - from)) l
  else l.
Proof.
  revert from. induction l as [|x l IH]; intros from.
  - cbn. case_decide; [by destruct (index - from)%nat|done].
  - cbn [Setup.filter_from]. rewrite IH.
    destruct (Nat.eqb_spec from index) as [->|Hne]; cbn [negb].
    + rewrite decide_False by lia. rewrite decide_True by lia.
      by rewrite Nat.sub_diag.
    + case_decide as Hle.
      * rewrite decide_True by lia.
        replace (index - from)%nat with (S (index - S from)) by lia.
        done.
      * by rewrite decide_False by lia.
Qed.

(** X21.  Removing the file at a position leaves the files before it and
    the files after it in their order, and nothing else of the form is
    touched; a position past the end removes nothing. *)
Theorem removeFile_drops_one (index : nat) (s : Setup.State) :
  Setup.files (Setup.removeFile index s) =
    take index (Setup.files s) ++ drop (S index) (Setup.files s) /\
  ((length (Setup.files s) <= index)%nat ->
     Setup.files (Setup.removeFile index s) = Setup.files s) /\
  Setup.text (Setup.removeFile index s) = Setup.text s /\
  Setup.mode (Setup.removeFile index s) = Setup.mode s /\
  Setup.language (Setup.removeFile index s) = Setup.language s /\
  Setup.loading (Setup.removeFile index s) = Setup.loading s.
Proof.
  assert (Hfiles : Setup.files (Setup.removeFile index s) =
    take index (Setup.files s) ++ drop (S index) (Setup.files s)).
  { cbn. rewrite filter_from_drops. rewrite decide_True by lia.
    by rewrite Nat.sub_0_r. }
  repeat split; try done.
  intros Hlen. rewrite Hfiles.
  rewrite take_ge by lia. rewrite drop_ge by lia. by rewrite app_nil_r.
Qed.

Lemma append_assoc (a b c : string) :
  (a +:+ b) +:+ c = a +:+ (b +:+ c).
Proof.
  induction a as [|x a IH]; [done|].
  change (String x a +:+ b) with (String x (a +:+ b)).
  change (String x (a +:+ b) +:+ c) with (String x ((a +:+ b) +:+ c)).
  by rewrite IH.
Qed.

Lemma has_comma_app (a b : string) :
  Setup.has_comma (a +:+ b) = Setup.has_comma a || Setup.has_comma b.
Proof.
  unfold Setup.has_comma. induction a as [|c a IH]; [done|].
  change (String c a +:+ b) with (String c (a +:+ b)).
  cbn [String.list_ascii_of_string existsb].
  rewrite IH. by rewrite orb_assoc.
Qed.

Lemma split_no_comma (s : string) :
  Setup.has_comma s = false -> Setup.split Setup.comma s = [s].
Proof.
  unfold Setup.has_comma. induction s as [|c s IH]; [done|].
  cbn. intros H. apply orb_false_iff in H as [Hc Hs].
  rewrite Ascii.eqb_sym in Hc. rewrite Hc. by rewrite (IH Hs).
Qed.

Lemma split_at_comma (a b : string) :
  Setup.has_comma a = false ->
  Setup.split Setup.comma (a +:+ String Setup.comma b) =
  a :: Setup.split Setup.comma b.
Proof.
  unfold Setup.has_comma. induction a as [|c a IH]; intros H.
  - change (EmptyString +:+ String Setup.comma b) with (String Setup.comma b).
    cbn [Setup.split]. by rewrite Ascii.eqb_refl.
  - cbn in H. apply orb_false_iff in H as [Hc Hs].
    change (String c a +:+ String Setup.comma b)
      with (String c (a +:+ String Setup.comma b)).
    cbn [Setup.split].
    rewrite Ascii.eqb_sym in Hc. rewrite Hc. by rewrite (IH Hs).
Qed.

(** X22.  A picked file whose reader result is
    [data:<type>;base64,<bytes>], whatever media type the reader wrote,
    with no comma in that type or in the bytes, is appended to the files as
    an entry that carries the file's own type and name and exactly the
    bytes; a reader result without any comma gives an entry whose data is
    undefined. *)
Theorem onload_keeps_payload (file : Setup.PickedFile) (type b64 : string)
    (prev : list Setup.LoadedFile) :
  Setup.has_comma type = false ->
  Setup.has_comma b64 = false ->
  exists entry,
    Setup.onload file (Setup.dataURL type b64) prev =
      prev ++ [entry] /\
    Setup.declared entry =
      Some {| Setup.mimeType := Setup.file_type file;
              Setup.data := b64;
              Setup.name := Setup.file_name file |} /\
    forall result, Setup.has_comma result = false ->
      exists bare,
        Setup.onload file result prev = prev ++ [bare] /\
        Setup.declared bare = None.
Proof.
  intros Htype Hb64.
  eexists. split; [reflexivity|]. split.
  - unfold Setup.declared, Setup.base64Data, Setup.dataURL. cbn [Setup.loaded_data].
    replace ("data:" +:+ type +:+ ";base64," +:+ b64)
      with (("data:" +:+ type +:+ ";base64") +:+
            String Setup.comma b64).
    2:{ rewrite !append_assoc. reflexivity. }
    rewrite split_at_comma.
    2:{ change ("data:" +:+ type +:+ ";base64")
          with ("data:" +:+ (type +:+ ";base64")).
        rewrite !has_comma_app. rewrite Htype. reflexivity. }
    rewrite (split_no_comma _ Hb64). reflexivity.
  - intros result Hresult. eexists. split; [reflexivity|].
    unfold Setup.declared, Setup.base64Data. cbn [Setup.loaded_data].
    rewrite (split_no_comma _ Hresult). reflexivity.
Qed.

Lemma string_or_nonempty (s : option string) (d : string) :
  d <> EmptyString -> string_or s d <> EmptyString.
Proof. destruct s as [[|c s]|]; cbn; congruence. Qed.

Lemma string_or_truthy (s : option string) (d : string) :
  Worksheet.truthy s = true -> string_or s d = template_hole s.
Proof. destruct s as [[|c s]|]; cbn; congruence. Qed.

(** X23.  On the worksheet the sentence line of a vocabulary entry and the
    meaning cell of an idiom are never empty.  While the answers are hidden,
    an entry with a non-empty cloze text shows that text in the paragraph
    and vocabulary blocks, and the idiom, its phonetic line and the
    vocabulary hint are not rendered; an entry without a cloze text shows
    its full sentence in the paragraph block even then. *)
Theorem worksheet_lines (s : Worksheet.State) (item : DictationItem) :
  Worksheet.vocabLine s item <> EmptyString /\
  Worksheet.idiomMeaning item <> EmptyString /\
  (Worksheet.showAnswers s = false ->
     Worksheet.idiomAnswer s item = None /\
     Worksheet.idiomPinyin s item = None /\
     Worksheet.vocabHint s item = None /\
     (Worksheet.truthy (clozeContent item) = true ->
        Worksheet.paragraphText s item = template_hole (clozeContent item) /\
        Worksheet.vocabLine s item = template_hole (clozeContent item)) /\
     (Worksheet.truthy (clozeContent item) = false ->
        Worksheet.paragraphText s item = content item)).
Proof.
  split; [|split].
  - unfold Worksheet.vocabLine.
    destruct (Worksheet.showAnswers s); cbn [andb].
    + destruct (example item) as [[|c e]|] eqn:He; cbn [Worksheet.truthy].
      * apply string_or_nonempty. cbn. done.
      * cbn. congruence.
      * apply string_or_nonempty. cbn. done.
    + apply string_or_nonempty. apply string_or_nonempty. done.
  - apply string_or_nonempty. done.
  - intros Hs.
    unfold Worksheet.idiomAnswer, Worksheet.idiomPinyin, Worksheet.vocabHint,
      Worksheet.paragraphText, Worksheet.vocabLine.
    rewrite Hs. rewrite andb_false_r. cbn [andb].
    repeat split.
    + by apply string_or_truthy.
    + by apply string_or_truthy.
    + destruct (clozeContent item) as [[|c e]|]; cbn; congruence.
Qed.

Section Process.

Variable analyzeMaterial :
  string -> list Setup.File -> DictationMode -> completion (list DictationItem).

(** X20.  When the action buttons are enabled, a press makes exactly one
    extraction call, with the text, the files and the mode of the form, and
    leaves the form's entries as they are.  If the extraction gives items
    the application moves to the requested view with these items, the mode
    and the language of the form and position 0, and the busy flag is off;
    if it gives none the application stays as it is and shows the
    notice. *)
Theorem handleProcess_enabled (targetView : App.TargetView)
    (w : Setup.World App.World) :
  Setup.processDisabled (Setup.state w) = false ->
  let s := Setup.state w in
  let w' := Setup.handleProcess analyzeMaterial Setup_onStart targetView w in
  Setup.extractionCalls w' =
    Setup.extractionCalls w ++
    [{| Setup.call_text := Setup.text s;
        Setup.call_files := Setup.files s;
        Setup.call_mode := Setup.mode s |}] /\
  Setup.text (Setup.state w') = Setup.text s /\
  Setup.files (Setup.state w') = Setup.files s /\
  Setup.mode (Setup.state w') = Setup.mode s /\
  Setup.language (Setup.state w') = Setup.language s /\
  forall items,
    analyzeMaterial (Setup.text s) (Setup.files s) (Setup.mode s) = Normal items ->
    Setup.loading (Setup.state w') = false /\
    match items with
    | [] =>
        App.appState (Setup.parent w') = App.appState (Setup.parent w) /\
        App.alerts (Setup.parent w') =
          App.alerts (Setup.parent w) ++ [App.content_missing_notice]
    | _ :: _ =>
        App.appState (Setup.parent w') =
          {| view := App.TargetView_view targetView;
             mode := Setup.mode s;
             audioLanguage := Setup.language s;
             dictationList := items;
             currentIndex := 0 |} /\
        App.alerts (Setup.parent w') = App.alerts (Setup.parent w)
    end.
Proof.
  intros Hen s w'.
  unfold Setup.processDisabled in Hen.
  apply orb_false_iff in Hen as [Hload Hblank].
  subst s w'. unfold Setup.handleProcess. rewrite Hblank.
  destruct (analyzeMaterial _ _ _)
    as [items|e] eqn:Ha; cbn.
  - split_and!; try done.
    intros items' [= <-]. split; [done|].
    destruct items as [|item items]; cbn; done.
  - split_and!; done.
Qed.

End Process.

End Shell.

(** ** The microphone *)

Section Microphone.
Import JS Types Practice.

Variable props : Props.
Variable window : Window.

Lemma settle_same_index (cs : list Cmd) (st : State) :
  currentIndex (commit cs st) = currentIndex st -> settle cs st = commit cs st.
Proof.
  intros H. unfold settle, renders. cbv zeta. by rewrite decide_True.
Qed.

(** X24.  With the microphone off, a press on its button in a browser
    without speech recognition only shows the notice.  In a browser with
    speech recognition it starts a recognition in the input language of
    that moment and changes nothing on the screen; once the recognizer has
    started, the listening flag is on and the synthesizer has been
    silenced, and a second press stops the recognizer and clears the flag
    without any notice. *)
Theorem microphone_toggle (w : World) :
  isListening (ui w) = false ->
  (SpeechRecognition window = false ->
     step props window click_mic w = exec (alert stt_unsupported_notice) w) /\
  (SpeechRecognition window = true ->
     ui (step props window click_mic w) = ui w /\
     recognizing (step props window click_mic w) = Some (inputLang (ui w)) /\
     alerts (step props window click_mic w) = alerts w /\
     forall voices, speechSynthesis window = Some voices ->
       let w1 := steps props window [click_mic; on_recognition_start] w in
       isListening (ui w1) = true /\
       nowSpeaking w1 = None /\
       recognizing (step props window click_mic w1) = None /\
       isListening (ui (step props window click_mic w1)) = false /\
       alerts (step props window click_mic w1) = alerts w).
Proof.
  intros Hoff. destruct w as [st clock timers speaking spoken alerts recognizing].
  destruct st as [index stage emotion messages input listening lang].
  cbn in Hoff. subst listening.
  split; intros Hrec.
  - unfold step, run, toggleListening. cbn. rewrite Hrec. cbn.
    rewrite settle_same_index by reflexivity. reflexivity.
  - assert (Hfirst :
      step props window click_mic
        {| ui := {| currentIndex := index; Practice.stage := stage;
                    robotEmotion := emotion; Practice.messages := messages;
                    chatInput := input; isListening := false; inputLang := lang |};
           Practice.clock := clock; Practice.timers := timers;
           nowSpeaking := speaking; Practice.spoken := spoken;
           Practice.alerts := alerts; Practice.recognizing := recognizing |}
      = {| ui := {| currentIndex := index; Practice.stage := stage;
                    robotEmotion := emotion; Practice.messages := messages;
                    chatInput := input; isListening := false; inputLang := lang |};
           Practice.clock := clock; Practice.timers := timers;
           nowSpeaking := speaking; Practice.spoken := spoken;
           Practice.alerts := alerts; Practice.recognizing := Some lang |}).
    { unfold step, run, toggleListening. cbn. rewrite Hrec. cbn.
      rewrite settle_same_index by reflexivity. reflexivity. }
    rewrite Hfirst. cbn [ui Practice.recognizing Practice.alerts inputLang].
    split; [done |]. split; [done |]. split; [done |].
    intros voices Hvoices.
    unfold steps. cbn [foldl]. rewrite Hfirst.
    unfold step, run, recognition_onstart. rewrite Hvoices. cbn.
    rewrite !settle_same_index by reflexivity. cbn. done.
Qed.

End Microphone.

(** ** Examples *)

Section MoreExamples.
Import JS Types GeminiService Practice Examples Sessions.

Lemma analyzeMaterial_keeps_order_witness :
  exists (response : GenerateContentResponse) (l : list value)
         (items : list ReturnedItem),
    responds idiom_text (analyzeMaterial_request EmptyString [] idiom)
    = Normal response /\
    Examples.JSON_parse (string_or (response_text response) "[]")
    = Normal (VArray l) /\
    analyzeMaterial (responds idiom_text) Examples.JSON_parse EmptyString [] idiom
    = Normal items /\
    length items = length l /\
    forall (j : nat) (raw : value),
      l !! j = Some raw ->
      exists it, items !! j = Some it /\ content it = property raw "content".
Proof.
  apply (analyzeMaterial_keeps_order (responds idiom_text) Examples.JSON_parse
           EmptyString [] idiom).
  reflexivity.
Defined.

Lemma isNewParagraph_normalized_witness :
  isNewParagraph paragraph_item = VBool true.
Proof.
  destruct (isNewParagraph_normalized (responds paragraph_text) Examples.JSON_parse
              sentence [] paragraph {| response_text := Some paragraph_text |}
              [paragraph_raw] [paragraph_item] eq_refl eq_refl
              analyzeMaterial_paragraph 0 paragraph_raw paragraph_item
              eq_refl eq_refl)
    as (_ & _ & _ & H).
  apply H. reflexivity.
Defined.

Lemma paragraph_raw_conforms : conforms (itemSchema paragraph) paragraph_raw.
Proof.
  split; [eexists; reflexivity |].
  repeat (constructor;
          [intros H;
           first [ vm_compute; exact I
                 | exfalso;
                   repeat (apply elem_of_cons in H as [H | H]; [discriminate |]);
                   by apply elem_of_nil in H ] |]).
  constructor.
Qed.

Lemma required_fields_pass_through_witness :
  field_of "clozeContent" paragraph_item = Some (VString sentence_cloze).
Proof.
  destruct (required_fields_pass_through (responds paragraph_text) Examples.JSON_parse
              sentence [] paragraph {| response_text := Some paragraph_text |}
              [paragraph_raw] eq_refl eq_refl)
    as (items & Ha & _ & Hget).
  - constructor; [exact paragraph_raw_conforms | constructor].
  - rewrite analyzeMaterial_paragraph in Ha. injection Ha as <-.
    rewrite (Hget 0 paragraph_raw paragraph_item "clozeContent" eq_refl eq_refl).
    + reflexivity.
    + cbn. set_solver.
Defined.

Lemma analyzeMaterial_no_text_witness :
  analyzeMaterial silent Examples.JSON_parse sentence [] vocab = Normal [].
Proof.
  apply (analyzeMaterial_no_text silent Examples.JSON_parse sentence [] vocab
           {| response_text := None |}).
  - reflexivity.
  - left. reflexivity.
  - reflexivity.
Defined.

Lemma chatWithAssistant_answer_witness :
  chatWithAssistant (responds lion_answer) [] question None = Normal lion_answer.
Proof.
  destruct (chatWithAssistant_answer (responds lion_answer) [] question None
              {| response_text := Some lion_answer |} eq_refl)
    as [H _].
  apply H; [reflexivity | discriminate].
Defined.

Lemma answer_shown_reachable : reachable (animals vocab) browser answer_shown.
Proof. exists [click_next 1000%N]. reflexivity. Qed.

Lemma only_next_moves_position_witness :
  currentIndex (ui (step (animals vocab) browser click_play answer_shown))
  = currentIndex (ui answer_shown) /\
  stage (ui (step (animals vocab) browser click_play answer_shown))
  = stage (ui answer_shown).
Proof.
  apply only_next_moves_position; [exact answer_shown_reachable | discriminate].
Defined.

Lemma message_log_grows_witness :
  exists l,
    messages (ui (step (animals vocab) browser (click_next 2000) answer_shown))
    = messages (ui answer_shown) ++ l /\
    (messages_kind ∉ writes (click_next 2000) -> l = []).
Proof. apply message_log_grows. exact answer_shown_reachable. Defined.

Lemma index_in_range_witness :
  currentIndex (ui answer_shown) < length (items (animals vocab)) /\
  is_Some (currentItem (animals vocab) (ui answer_shown)).
Proof.
  apply (index_in_range (animals vocab) browser);
    [exact answer_shown_reachable | discriminate].
Defined.

Lemma inputLang_rotates_witness :
  known_inputLang (inputLang (ui answer_shown)) /\
  getInputLangLabel (ui answer_shown) <> inputLang (ui answer_shown) /\
  inputLang (ui (step (animals vocab) browser click_lang answer_shown))
  <> inputLang (ui answer_shown) /\
  inputLang (ui (steps (animals vocab) browser [click_lang; click_lang; click_lang]
                   answer_shown))
  = inputLang (ui answer_shown).
Proof. apply inputLang_rotates. exact answer_shown_reachable. Defined.

Lemma label_agrees_with_press_witness :
  (nextButtonLabel (animals vocab) at_last_item = finish_label /\
   currentIndex (advance (animals vocab) 4000 at_last_item)
   = currentIndex at_last_item /\
   messages (advance (animals vocab) 4000 at_last_item)
   = messages at_last_item ++ [finished_message 4000]) \/
  (nextButtonLabel (animals vocab) at_last_item = next_label /\
   currentIndex (advance (animals vocab) 4000 at_last_item)
   = S (currentIndex at_last_item) /\
   messages (advance (animals vocab) 4000 at_last_item) = messages at_last_item).
Proof. apply label_agrees_with_press. reflexivity. Defined.

Lemma presses_to_finish_witness :
  messages (advance (animals vocab) 4000
              (foldl (fun s now => advance (animals vocab) now s) initialState
                     [1000%N; 2000%N; 3000%N]))
  = messages initialState ++ [finished_message 4000].
Proof.
  destruct (presses_to_finish (animals vocab) [1000%N; 2000%N; 3000%N] 4000%N)
    as (_ & _ & _ & H).
  - cbn. lia.
  - apply H. reflexivity.
Defined.

Lemma single_utterance_play_witness :
  spoken (steps (animals vocab) browser
            [click_play; time_passes 5000; on_utterance_end] initialWorld)
  = [(0%N, says_lion)].
Proof.
  assert (Hmode : mode (animals vocab) <> idiom) by discriminate.
  destruct (single_utterance_play (animals vocab) browser [hk_voice] lion initialWorld
              [time_passes 5000; on_utterance_end] Hmode eq_refl eq_refl)
    as (_ & _ & _ & _ & _ & Hspoken).
  rewrite Hspoken by reflexivity. reflexivity.
Defined.

Lemma play_without_synthesis_witness :
  spoken (step (animals vocab) mute_browser click_play initialWorld) = [] /\
  alerts (step (animals vocab) mute_browser click_play initialWorld) = [] /\
  robotEmotion (ui (step (animals vocab) mute_browser click_play initialWorld))
  = speaking.
Proof.
  destruct (play_without_synthesis (animals vocab) mute_browser lion initialWorld
              eq_refl eq_refl)
    as (Hspoken & _ & H).
  cbn [animals audioLanguage] in H. destruct H as (Halerts & _ & Hrobot).
  split; [exact Hspoken |]. split; [exact Halerts | exact Hrobot].
Defined.

Lemma chat_history_window_witness :
  exists call,
    result (handleChatSubmit (animals vocab) 1000 (ui asking)) = Normal (Some call) /\
    length (call_history call) = length (messages (ui asking)) /\
    call_message call = question.
Proof.
  eexists. split; [reflexivity |].
  destruct (chat_history_window (animals vocab) 1000 (ui asking) _ eq_refl)
    as (Hlen & Hmessage & _).
  split; [exact Hlen | exact Hmessage].
Defined.

Lemma blank_chat_ignored_witness :
  submitChat offline speech_offline (animals vocab) 1000 2000 typing_blank
  = (typing_blank, None).
Proof.
  apply blank_chat_ignored. exact blank_is_WhiteSpaceOnly.
Defined.

Lemma chat_round_witness :
  exists (w' : World) (audio : option string),
    submitChat offline (speech_with "QUJD") (animals vocab) 1000 2000 asking
    = (w', audio) /\
    messages (ui w')
    = messages (ui asking) ++
      [textMessage (pretty 1000%N) user question;
       textMessage (pretty 2000%N) model chat_fallback].
Proof.
  assert (Hinput : trim (chatInput (ui asking)) <> EmptyString)
    by (vm_compute; discriminate).
  destruct (chat_round (animals vocab) offline (speech_with "QUJD") 1000 2000
              asking lion Hinput eq_refl)
    as (reply & audio & w' & E & _ & Hmessages & _ & _ & _ & _ & _ & _ & Hdown).
  exists w', audio. split; [exact E |].
  rewrite Hmessages. rewrite Hdown; [reflexivity |].
  intros request. eexists. reflexivity.
Defined.

Lemma app_view_matches_items_witness :
  (Types.view (App.appState after_back) = setup <->
   Types.dictationList (App.appState after_back) = []) /\
  Types.view (App.appState after_back) <> report /\
  Types.currentIndex (App.appState after_back) = 0.
Proof.
  apply app_view_matches_items.
  exists [App.start [lion; tiger] vocab cantonese (Some App.toWorksheet); App.back].
  reflexivity.
Defined.

Lemma handleProcess_enabled_witness :
  App.appState (Setup.parent
    (Setup.handleProcess finds_animals Setup_onStart App.toWorksheet ready_setup))
  = {| Types.view := worksheet;
       Types.mode := paragraph;
       Types.audioLanguage := cantonese;
       Types.dictationList := [lion; tiger];
       Types.currentIndex := 0 |}.
Proof.
  assert (Henabled : Setup.processDisabled (Setup.state ready_setup) = false)
    by (vm_compute; reflexivity).
  pose proof (handleProcess_enabled finds_animals App.toWorksheet ready_setup Henabled)
    as H.
  cbv zeta in H. destruct H as (_ & _ & _ & _ & _ & H).
  destruct (H [lion; tiger] eq_refl) as [_ [Happ _]].
  exact Happ.
Defined.

Lemma onload_keeps_payload_witness :
  exists entry,
    Setup.onload untyped (Setup.dataURL "application/octet-stream" "QUJD") []
    = [entry] /\
    Setup.declared entry =
      Some {| Setup.mimeType := EmptyString; Setup.data := "QUJD";
              Setup.name := "list.scan" |}.
Proof.
  destruct (onload_keeps_payload untyped "application/octet-stream" "QUJD" []
              eq_refl eq_refl)
    as (entry & Hfiles & Hentry & _).
  exists entry. split; [exact Hfiles | exact Hentry].
Defined.

Lemma microphone_toggle_witness :
  recognizing (step (animals vocab) browser click_mic initialWorld)
  = Some (inputLang (ui initialWorld)) /\
  recognizing (steps (animals vocab) browser
                 [click_mic; on_recognition_start; click_mic] initialWorld)
  = None.
Proof.
  destruct (microphone_toggle (animals vocab) browser initialWorld eq_refl)
    as [_ H].
  destruct (H eq_refl) as (_ & Hstarted & _ & Hnext).
  split; [exact Hstarted |].
  destruct (Hnext [hk_voice] eq_refl) as (_ & _ & Hstopped & _).
  exact Hstopped.
Defined.

End MoreExamples.
